(** * Expression splitting and arithmetic composition of encodings

    A shallow embedding of [core/models/base_model.py] (class
    [TransductionModel]): the expression splitter
    [_split_and_pad_expressions], the batch reducer
    [_encode_reduce_expressions], and the three composition entry points
    [forward_batch_expr], [forward_expression] and
    [forward_expression_eos].

    Python exceptions are values of [exn]; a computation that may raise
    returns a [result].  The tensor engine (torch) and the encoder and
    decoder networks are interfaces: the model is stated over any
    implementation of them, and one small integer-valued implementation is
    given so that the functions can be run on concrete batches. *)

From Stdlib Require Import List ZArith Lia String Bool Arith PeanoNat.
Import ListNotations.
Open Scope string_scope.
Open Scope list_scope.

(** ** Exceptions and fallible computations *)

Inductive exn : Type :=
| IndexError
| AttributeError
| TypeError
| RuntimeError
| NotImplementedError
| AssertionError.

Inductive result (A : Type) : Type :=
| Ok (a : A)
| Raise (e : exn).
Arguments Ok {A} a.
Arguments Raise {A} e.

Definition bind {A B : Type} (c : result A) (k : A -> result B) : result B :=
  match c with
  | Ok a => k a
  | Raise e => Raise e
  end.

Notation "x <- c ;; k" := (bind c (fun x => k))
  (at level 61, c at next level, right associativity).
Notation "' pat <- c ;; k" := (bind c (fun x => match x with pat => k end))
  (at level 61, pat pattern, c at next level, right associativity).

(** A list comprehension whose body may raise: elements are evaluated left
    to right and the first exception ends the comprehension. *)
Fixpoint mapM {A B : Type} (f : A -> result B) (l : list A) : result (list B) :=
  match l with
  | [] => Ok []
  | x :: l' =>
      y <- f x ;;
      ys <- mapM f l' ;;
      Ok (y :: ys)
  end.

Definition is_ok {A : Type} (r : result A) : bool :=
  match r with Ok _ => true | Raise _ => false end.

(** [l[i]] on a Python list. *)
Definition list_index {A : Type} (l : list A) (i : nat) : result A :=
  match nth_error l i with
  | Some x => Ok x
  | None => Raise IndexError
  end.

(** ** The expression splitter

    The source batch is a time-major 2-D integer tensor.  It is kept here as
    the list of its columns (one column per example, each of the same
    length): [source.permute(1, 0)] iterates over exactly these columns, and
    each iterate is a view that shares the storage of the batch. *)

Module Splitter.

(** The id of [<unk>], which marks an operator. *)
Definition unk : Z := 0%Z.

(** A 1-D tensor held in [sub_exps]: either a view [start, start+len) of the
    column being split (the storage of the caller's batch), or a tensor
    with storage of its own, as [torch.cat] returns. *)
Inductive tref : Type :=
| View (start len : nat)
| Own (data : list Z).

Definition slice (start len : nat) (col : list Z) : list Z :=
  firstn len (skipn start col).

Definition read (col : list Z) (r : tref) : list Z :=
  match r with
  | View s l => slice s l col
  | Own d => d
  end.

Fixpoint set_nth (i : nat) (v : Z) (l : list Z) : list Z :=
  match l, i with
  | [], _ => []
  | _ :: l', O => v :: l'
  | x :: l', S i' => x :: set_nth i' v l'
  end.

(** [(exp == 0).nonzero(as_tuple=True)[0]]: the positions of [exp] that hold
    the operator marker, in increasing order. *)
Fixpoint nonzero_from (i : nat) (l : list Z) : list nat :=
  match l with
  | [] => []
  | x :: l' =>
      if Z.eqb x unk then i :: nonzero_from (S i) l'
      else nonzero_from (S i) l'
  end.

Definition operator_indices (col : list Z) : list nat := nonzero_from 0 col.

(** [torch.tensor_split(exp, indices)]: the views [exp[0:i1]],
    [exp[i1:i2]], ..., [exp[ik:]]. *)
Fixpoint tensor_split_from (start total : nat) (idx : list nat) : list tref :=
  match idx with
  | [] => [View start (total - start)]
  | i :: idx' => View start (i - start) :: tensor_split_from i total idx'
  end.

Definition tensor_split (total : nat) (idx : list nat) : list tref :=
  tensor_split_from 0 total idx.

(** [t[0]] and [t[-1]] of a 1-D tensor: 0-dim views of its first and last
    element. *)
Definition first_elt (r : tref) : result tref :=
  match r with
  | View s l => if Nat.eqb l 0 then Raise IndexError else Ok (View s 1)
  | Own d => match d with [] => Raise IndexError | x :: _ => Ok (Own [x]) end
  end.

Definition last_elt (r : tref) : result tref :=
  match r with
  | View s l => if Nat.eqb l 0 then Raise IndexError else Ok (View (s + l - 1) 1)
  | Own d => match d with [] => Raise IndexError | _ => Ok (Own [last d 0%Z]) end
  end.

(** First loop: [sub_exps[i] = torch.cat((sub_exps[i], torch.tensor([eos_tok])))]
    for every [i] but the last.  [torch.cat] allocates: the slot now holds a
    tensor of its own. *)
Fixpoint append_eos (col : list Z) (eos_tok : tref) (sub_exps : list tref)
  : list tref :=
  match sub_exps with
  | [] => []
  | [x] => [x]
  | x :: rest => Own (read col x ++ read col eos_tok) :: append_eos col eos_tok rest
  end.

(** [t[0] = v], in place: through a view it writes the column itself. *)
Definition write_first (col : list Z) (r : tref) (v : Z)
  : result (list Z * tref) :=
  match r with
  | View s l =>
      if Nat.eqb l 0 then Raise IndexError else Ok (set_nth s v col, View s l)
  | Own d =>
      match d with
      | [] => Raise IndexError
      | _ :: d' => Ok (col, Own (v :: d'))
      end
  end.

(** Second loop: [sub_exps[i + 1][0] = sos_tok] over [sub_exps[1:]].  The
    start marker is read through its view at each assignment. *)
Fixpoint rewrite_unk (col : list Z) (sos_tok : tref) (rest : list tref)
  : result (list Z * list tref) :=
  match rest with
  | [] => Ok (col, [])
  | r :: rest' =>
      '(col1, r1) <- write_first col r (hd 0%Z (read col sos_tok)) ;;
      '(col2, rs) <- rewrite_unk col1 sos_tok rest' ;;
      Ok (col2, r1 :: rs)
  end.

(** The body of the loop over the examples: the column after the loop body
    has run, and [sub_exps]. *)
Definition split_column (col : list Z) : result (list Z * list tref) :=
  let sub_exps := tensor_split (List.length col) (operator_indices col) in
  s0 <- list_index sub_exps 0 ;;
  sos_tok <- first_elt s0 ;;
  sl <- list_index sub_exps (List.length sub_exps - 1) ;;
  eos_tok <- last_elt sl ;;
  let sub_exps1 := append_eos col eos_tok sub_exps in
  match sub_exps1 with
  | [] => Ok (col, [])
  | s :: rest =>
      '(col', rest') <- rewrite_unk col sos_tok rest ;;
      Ok (col', s :: rest')
  end.

(** [_split_and_pad_expressions]: the caller's tensor after the call, and
    the returned [expressions], every sub-expression read once the call is
    over. *)
Definition split_and_pad_expressions (source : list (list Z))
  : result (list (list Z) * list (list (list Z))) :=
  rs <- mapM (fun col =>
                '(col', subs) <- split_column col ;;
                Ok (col', map (read col') subs)) source ;;
  Ok (map fst rs, map snd rs).

End Splitter.

(** ** The tensor engine and the bag of fields *)

(** The operations of torch that the composition code applies to encodings.
    [tadd] and [tsub] are [torch.add]/[+] and [torch.subtract]/[-], [tcat]
    is [torch.cat((a, b))], [thstack] is [torch.hstack], [tunbind] lists the
    slices along the first dimension (nothing for a 0-dim tensor), and
    [of_tokens] is the integer tensor whose columns are the given token
    sequences. *)
Class TensorEngine : Type := {
  tensor : Type;
  tadd : tensor -> tensor -> result tensor;
  tsub : tensor -> tensor -> result tensor;
  tcat : tensor -> tensor -> result tensor;
  thstack : list tensor -> result tensor;
  tunbind : tensor -> option (list tensor);
  tshape : tensor -> list nat;
  of_tokens : list (list Z) -> tensor
}.

(** What a field holds: one tensor, or a Python tuple of tensors (the hidden
    and cell state of a recurrent encoder). *)
Inductive value `{TensorEngine} : Type :=
| VTensor (t : tensor)
| VTuple (l : list tensor).

(** Modelled from the spec: [ModelIO] (core/models/model_io.py is not among
    the sources).  A bag of named optional fields: built from a dict, fields
    set one at a time, a field that was never set is absent and reading it
    raises; [__dict__.keys()] lists the fields in the order they were set. *)
Definition ModelIO `{TensorEngine} : Type := list (string * value).

Fixpoint lookup `{TensorEngine} (key : string) (m : ModelIO) : option value :=
  match m with
  | [] => None
  | (k, v) :: m' => if String.eqb k key then Some v else lookup key m'
  end.

Definition getattr `{TensorEngine} (m : ModelIO) (key : string) : result value :=
  match lookup key m with
  | Some v => Ok v
  | None => Raise AttributeError
  end.

Fixpoint set_attribute `{TensorEngine} (key : string) (v : value) (m : ModelIO)
  : ModelIO :=
  match m with
  | [] => [(key, v)]
  | (k, w) :: m' =>
      if String.eqb k key then (k, v) :: m'
      else (k, w) :: set_attribute key v m'
  end.

Definition keys `{TensorEngine} (m : ModelIO) : list string := map fst m.

Definition is_tuple `{TensorEngine} (v : value) : bool :=
  match v with VTuple _ => true | VTensor _ => false end.

(** The encoder, its resumption from a hidden state, and the decoder (always
    called with [tf_ratio=0.0] by the composition code). *)
Class Networks `{TensorEngine} : Type := {
  encoder : ModelIO -> result ModelIO;
  forward_with_hidden : ModelIO -> option value -> result ModelIO;
  decoder : ModelIO -> result ModelIO
}.

Section Composition.
Context `{E : TensorEngine} `{N : !Networks}.

(** ** The batch reducer *)

(** [v[i]]: a tuple is indexed, a tensor is sliced along its first
    dimension. *)
Definition index (v : value) (i : nat) : result tensor :=
  match v with
  | VTuple l => list_index l i
  | VTensor t =>
      match tunbind t with
      | Some l => list_index l i
      | None => Raise IndexError
      end
  end.

(** [x - y] on field values: a tuple operand raises a type error. *)
Definition vsub (x y : value) : result tensor :=
  match x, y with
  | VTensor a, VTensor b => tsub a b
  | _, _ => Raise TypeError
  end.

(** The body of the loop over the keys of [encodings[0]]. *)
Definition reduce_key (encodings : list ModelIO) (key : string) : result value :=
  e0 <- list_index encodings 0 ;;
  v0 <- getattr e0 key ;;
  if is_tuple v0 then
    a0 <- index v0 0 ;;
    e1 <- list_index encodings 1 ;;
    v1 <- getattr e1 key ;;
    a1 <- index v1 0 ;;
    d <- tsub a0 a1 ;;
    e2 <- list_index encodings 2 ;;
    v2 <- getattr e2 key ;;
    a2 <- index v2 0 ;;
    a <- tadd d a2 ;;
    b0 <- index v0 1 ;;
    b1 <- index v1 0 ;;
    d' <- tsub b0 b1 ;;
    b2 <- index v2 1 ;;
    b <- tadd d' b2 ;;
    Ok (VTuple [a; b])
  else
    e1 <- list_index encodings 1 ;;
    v1 <- getattr e1 key ;;
    d <- vsub v0 v1 ;;
    e2 <- list_index encodings 2 ;;
    v2 <- getattr e2 key ;;
    match v2 with
    | VTensor c => r <- tadd d c ;; Ok (VTensor r)
    | VTuple _ => Raise TypeError
    end.

(** The reduction of the encodings of one example: [results], as the
    [ModelIO] built from it. *)
Definition reduce_encodings (encodings : list ModelIO) : result ModelIO :=
  e0 <- list_index encodings 0 ;;
  mapM (fun key => v <- reduce_key encodings key ;; Ok (key, v)) (keys e0).

(** [_encode_reduce_expressions]. *)
Definition encode_reduce_expressions (expressions : list (list ModelIO))
  : result (list ModelIO) :=
  mapM (fun exp =>
          encodings <- mapM encoder exp ;;
          reduce_encodings encodings) expressions.

(** ** Stacking the reduced encodings of a batch *)

(** Iterating over a field value: a tuple yields its components, a tensor
    its slices along the first dimension. *)
Definition as_iter (v : value) : result (list tensor) :=
  match v with
  | VTuple l => Ok l
  | VTensor t =>
      match tunbind t with
      | Some l => Ok l
      | None => Raise TypeError
      end
  end.

Definition as_tensor (v : value) : result tensor :=
  match v with
  | VTensor t => Ok t
  | VTuple _ => Raise TypeError
  end.

Definition heads {A : Type} (ls : list (list A)) : list A :=
  flat_map (fun l => match l with x :: _ => [x] | [] => [] end) ls.

Fixpoint zip_star_n {A : Type} (n : nat) (ls : list (list A)) : list (list A) :=
  match n with
  | O => []
  | S n' => heads ls :: zip_star_n n' (map (@tl A) ls)
  end.

(** [zip] over the unpacked list: as many tuples as the shortest list has elements. *)
Definition zip_star {A : Type} (ls : list (list A)) : list (list A) :=
  match ls with
  | [] => []
  | l :: ls' =>
      zip_star_n (fold_right Nat.min (List.length l) (map (@List.length A) ls')) ls
  end.

(** The loop that collapses the per-example encodings into [dec_input]. *)
Definition collapse_key (reduced : list ModelIO) (dec_input : result ModelIO)
  (key : string) : result ModelIO :=
  d <- dec_input ;;
  r0 <- list_index reduced 0 ;;
  v0 <- getattr r0 key ;;
  vals <- mapM (fun r => getattr r key) reduced ;;
  if is_tuple v0 then
    its <- mapM as_iter vals ;;
    hs <- mapM thstack (zip_star its) ;;
    Ok (set_attribute key (VTuple hs) d)
  else
    ts <- mapM as_tensor vals ;;
    h <- thstack ts ;;
    Ok (set_attribute key (VTensor h) d).

Definition collapse (reduced : list ModelIO) (dec_input : ModelIO)
  : result ModelIO :=
  r0 <- list_index reduced 0 ;;
  fold_left (collapse_key reduced) (keys r0) (Ok dec_input).

(** ** [forward_batch_expr] *)

Record Batch : Type := {
  source : list (list Z);
  annotation : tensor
}.

(** [torch.stack] of 1-D tensors: there must be one at least, and all of one
    length. *)
Definition stack (ts : list (list Z)) : result (list (list Z)) :=
  match ts with
  | [] => Raise RuntimeError
  | t :: ts' =>
      if forallb (fun u => Nat.eqb (List.length u) (List.length t)) ts'
      then Ok ts else Raise RuntimeError
  end.

(** [term[0:offset]] and [term[offset:]] for [offset = - k < 0]. *)
Definition prefix (k : nat) (term : list Z) : list Z :=
  firstn (List.length term - k) term.

Definition suffix (k : nat) (term : list Z) : list Z :=
  skipn (List.length term - k) term.

(** A 1-D term as the source of an encoder call, one column of one
    example: [term.unsqueeze(0).permute(1, 0)], or [term.unsqueeze(1)]. *)
Definition term_input (term : list Z) : ModelIO :=
  [("source", VTensor (of_tokens [term]))].

Definition decode (dec_input : ModelIO) : result value :=
  dec_output <- decoder dec_input ;;
  getattr dec_output "dec_outputs".

(** The buffer of one example in the branch [offset < 0]. *)
Definition resume_buffer (pf : ModelIO * ModelIO) : result ModelIO :=
  let '(partial, full) := pf in
  h <- getattr full "enc_hidden" ;;
  po <- getattr partial "enc_outputs" ;;
  fo <- getattr full "enc_outputs" ;;
  pt <- as_tensor po ;;
  ft <- as_tensor fo ;;
  o <- tcat pt ft ;;
  Ok [("enc_hidden", h); ("enc_outputs", VTensor o)].

(** The branch [offset < 0] up to [reduced_encodings]: the partial
    encodings of all examples are reduced first, then encoding resumes on
    what is left of the first term of every example. *)
Definition resume_encodings (k : nat) (expressions : list (list (list Z)))
  : result (list ModelIO) :=
  let exps_to_comp := map (map (prefix k)) expressions in
  let expressions_to_reduce := map (map term_input) exps_to_comp in
  partial_encodings <- encode_reduce_expressions expressions_to_reduce ;;
  remaining_partial_terms <-
    mapM (fun exp => t <- list_index exp 0 ;; Ok (suffix k t)) expressions ;;
  let remaining_partial_inputs := map term_input remaining_partial_terms in
  full_encodings <-
    mapM (fun ie : ModelIO * ModelIO =>
            h <- getattr (snd ie) "enc_hidden" ;;
            forward_with_hidden (fst ie) (Some h))
         (combine remaining_partial_inputs partial_encodings) ;;
  mapM resume_buffer (combine partial_encodings full_encodings).

(** [dec_input] before the encodings are set on it. *)
Definition initial_dec_input (stacked : list (list Z)) (batch : Batch) : ModelIO :=
  [("source", VTensor (of_tokens stacked));
   ("transform", VTensor (annotation batch))].

(** [torch.stack([e[0] for e in expressions])], as columns. *)
Definition stack_first_terms (expressions : list (list (list Z)))
  : result (list (list Z)) :=
  firsts <- mapM (fun e => list_index e 0) expressions ;;
  stack firsts.

Definition forward_batch_expr (batch : Batch) (offset : Z) : result value :=
  '(_, expressions) <- Splitter.split_and_pad_expressions (source batch) ;;
  stacked <- stack_first_terms expressions ;;
  let dec_input := initial_dec_input stacked batch in
  if (offset <? 0)%Z then
    reduced_encodings <- resume_encodings (Z.to_nat (- offset)) expressions ;;
    dec_input' <- collapse reduced_encodings dec_input ;;
    decode dec_input'
  else
    let expressions_to_reduce := map (map term_input) expressions in
    reduced_encodings <- encode_reduce_expressions expressions_to_reduce ;;
    if (offset =? 0)%Z then
      dec_input' <- collapse reduced_encodings dec_input ;;
      decode dec_input'
    else
      Raise NotImplementedError.

(** ** [forward_expression] and [forward_expression_eos] *)

(** An element of [expressions]: an operator string, or a term carrying its
    [source] tokens (time-major, kept as the list of its columns, of which
    there is one at least) and its [annotation]. *)
Inductive item : Type :=
| Str (s : string)
| Term (src : list (list Z)) (ann : tensor).

(** An element of [representations]. *)
Inductive repr : Type :=
| RStr (s : string)
| REnc (enc : ModelIO).

(** [torch.add] or [torch.subtract], as held by [should_operate]. *)
Inductive torch_op : Type := TorchAdd | TorchSubtract.

Definition apply_op (op : torch_op) (x y : tensor) : result tensor :=
  match op with
  | TorchAdd => tadd x y
  | TorchSubtract => tsub x y
  end.

(** The dict [buffer], whose keys are fixed. *)
Record buffer : Type := {
  enc_hidden : option value;
  enc_outputs : option value
}.

(** [try: buffer[key] = getattr(r, key)  except: buffer[key] = None]. *)
Definition load_field (r : ModelIO) (key : string) : option value :=
  lookup key r.

(** [try: buffer[key] = should_operate(buffer[key], getattr(r, key))
     except: buffer[key] = None]: a missing attribute, a [None] or tuple
    operand and an operation that the engine rejects all raise, and every
    exception is caught. *)
Definition operate_field (op : torch_op) (b : option value) (r : ModelIO)
  (key : string) : option value :=
  match b, lookup key r with
  | Some (VTensor x), Some (VTensor y) =>
      match apply_op op x y with
      | Ok z => Some (VTensor z)
      | Raise _ => None
      end
  | _, _ => None
  end.

(** One iteration of the loop over [representations]; the state is
    [buffer] and [should_operate] ([None] for [False]). *)
Definition reduce_step (st : buffer * option torch_op) (r : repr)
  : buffer * option torch_op :=
  let '(buf, should_operate) := st in
  match r with
  | RStr s =>
      (buf, Some (if String.eqb s "+" then TorchAdd else TorchSubtract))
  | REnc enc =>
      match should_operate with
      | None =>
          ({| enc_hidden := load_field enc "enc_hidden";
              enc_outputs := load_field enc "enc_outputs" |}, None)
      | Some op =>
          ({| enc_hidden := operate_field op (enc_hidden buf) enc "enc_hidden";
              enc_outputs := operate_field op (enc_outputs buf) enc "enc_outputs" |},
           None)
      end
  end.

Definition reduce_representations (representations : list repr) : buffer :=
  fst (fold_left reduce_step representations
         ({| enc_hidden := None; enc_outputs := None |}, None)).

(** The first loop of [forward_expression]: [representations] and
    [sources]. *)
Definition encode_item (trunc : list (list Z) -> list (list Z)) (t : item)
  : result (repr * list (list (list Z))) :=
  match t with
  | Str s => Ok (RStr s, [])
  | Term src _ =>
      enc_output <- encoder [("source", VTensor (of_tokens (trunc src)))] ;;
      Ok (REnc enc_output, [src])
  end.

Definition encode_items (trunc : list (list Z) -> list (list Z))
  (expressions : list item)
  : result (list repr * list (list (list Z))) :=
  rs <- mapM (encode_item trunc) expressions ;;
  Ok (map fst rs, List.concat (map snd rs)).

(** [expressions[0].source] and [expressions[0].annotation]: a string has
    neither attribute. *)
Definition first_term (expressions : list item)
  : result (list (list Z) * tensor) :=
  t <- list_index expressions 0 ;;
  match t with
  | Str _ => Raise AttributeError
  | Term src ann => Ok (src, ann)
  end.

Definition set_if_present (key : string) (v : option value) (m : ModelIO)
  : ModelIO :=
  match v with
  | Some x => set_attribute key x m
  | None => m
  end.

(** [dec_inputs], with the fields of [buffer] that are not [None]. *)
Definition make_dec_inputs (sources : list (list (list Z)))
  (expressions : list item) (buf : buffer) : result ModelIO :=
  s0 <- list_index sources 0 ;;
  '(_, ann) <- first_term expressions ;;
  let dec_inputs := [("source", VTensor (of_tokens s0)); ("transform", VTensor ann)] in
  Ok (set_if_present "enc_outputs" (enc_outputs buf)
        (set_if_present "enc_hidden" (enc_hidden buf) dec_inputs)).

Definition forward_expression (expressions : list item) : result value :=
  '(representations, sources) <- encode_items (fun s => s) expressions ;;
  let buf := reduce_representations representations in
  dec_inputs <- make_dec_inputs sources expressions buf ;;
  decode dec_inputs.

(** [source.shape] of a token tensor held as its columns. *)
Definition tok_shape (src : list (list Z)) : list nat :=
  [List.length (hd [] src); List.length src].

(** [source[0:-1, :]]. *)
Definition drop_last_step (src : list (list Z)) : list (list Z) :=
  map (@removelast Z) src.

(** [source[-1, :].unsqueeze(1)]: the last time step, as one column. *)
Definition last_step (src : list (list Z)) : result (list (list Z)) :=
  if existsb (fun c => Nat.eqb (List.length c) 0) src then Raise IndexError
  else Ok [map (fun c => last c 0%Z) src].

(** The composition of [forward_expression_eos] up to its two assertions:
    the buffer after the end marker has been encoded. *)
Definition eos_compose (expressions : list item) (buf : buffer)
  : result (tensor * value) :=
  '(src0, _) <- first_term expressions ;;
  eos_token <- last_step src0 ;;
  test_out <- forward_with_hidden [("source", VTensor (of_tokens eos_token))]
                (enc_hidden buf) ;;
  eo <- getattr test_out "enc_outputs" ;;
  new_outputs <-
    match enc_outputs buf, eo with
    | Some (VTensor a), VTensor b => tcat a b
    | _, _ => Raise TypeError
    end ;;
  h <- getattr test_out "enc_hidden" ;;
  Ok (new_outputs, h).

(** The two assertions. *)
Definition eos_asserts (expressions : list item) (outs : tensor) (h : value)
  : result unit :=
  '(src0, _) <- first_term expressions ;;
  if list_eq_dec Nat.eq_dec (firstn 2 (tshape outs)) (tok_shape src0) then
    match h with
    | VTuple _ => Raise AttributeError
    | VTensor t =>
        match tshape t with
        | [] => Raise IndexError
        | n :: _ => if Nat.eqb n 1 then Ok tt else Raise AssertionError
        end
    end
  else Raise AssertionError.

Definition forward_expression_eos (expressions : list item) : result value :=
  '(representations, sources) <- encode_items drop_last_step expressions ;;
  let buf := reduce_representations representations in
  '(outs, h) <- eos_compose expressions buf ;;
  _ <- eos_asserts expressions outs h ;;
  dec_inputs <- make_dec_inputs sources expressions
                  {| enc_hidden := Some h; enc_outputs := Some (VTensor outs) |} ;;
  decode dec_inputs.

End Composition.

(** ** An integer-valued tensor engine

    Tensors of any rank over [Z], as a shape and the elements in row-major
    order, with the broadcasting rule of torch for [+] and [-].  Integer
    values stand for floating-point values that are exactly representable. *)

Module IntEngine.

Record itensor : Type := mk_tensor {
  shape : list nat;
  data : list Z
}.

Definition numel (sh : list nat) : nat := fold_right Nat.mul 1 sh.

Definition pad_shape (n : nat) (sh : list nat) : list nat :=
  repeat 1 (n - List.length sh) ++ sh.

(** The shape two shapes of one rank broadcast to. *)
Fixpoint bshape (a b : list nat) : option (list nat) :=
  match a, b with
  | [], [] => Some []
  | x :: a', y :: b' =>
      match bshape a' b' with
      | None => None
      | Some r =>
          if Nat.eqb x y then Some (x :: r)
          else if Nat.eqb x 1 then Some (y :: r)
          else if Nat.eqb y 1 then Some (x :: r)
          else None
      end
  | _, _ => None
  end.

(** The multi-index of the flat position [i] in a tensor of shape [sh]. *)
Fixpoint unravel (sh : list nat) (i : nat) : list nat :=
  match sh with
  | [] => []
  | d :: sh' => (i / numel sh') mod d :: unravel sh' (i mod numel sh')
  end.

(** The flat position that a multi-index of the broadcast shape reads in a
    tensor of shape [sh]: a dimension of size one is read at 0. *)
Fixpoint ravel (sh idx : list nat) : nat :=
  match sh, idx with
  | d :: sh', i :: idx' =>
      (if Nat.eqb d 1 then 0 else i) * numel sh' + ravel sh' idx'
  | _, _ => 0
  end.

Definition pointwise (f : Z -> Z -> Z) (a b : itensor) : result itensor :=
  let n := Nat.max (List.length (shape a)) (List.length (shape b)) in
  let sa := pad_shape n (shape a) in
  let sb := pad_shape n (shape b) in
  match bshape sa sb with
  | None => Raise RuntimeError
  | Some sh =>
      Ok (mk_tensor sh
            (map (fun i =>
                    let idx := unravel sh i in
                    f (nth (ravel sa idx) (data a) 0%Z)
                      (nth (ravel sb idx) (data b) 0%Z))
                 (seq 0 (numel sh))))
  end.

(** [torch.cat] along the first dimension. *)
Definition cat (a b : itensor) : result itensor :=
  match shape a, shape b with
  | n :: ta, m :: tb =>
      if list_eq_dec Nat.eq_dec ta tb
      then Ok (mk_tensor ((n + m) :: ta) (data a ++ data b))
      else Raise RuntimeError
  | _, _ => Raise RuntimeError
  end.

Fixpoint chunks (n k : nat) (d : list Z) : list (list Z) :=
  match n with
  | O => []
  | S n' => firstn k d :: chunks n' k (skipn k d)
  end.

Definition unbind (t : itensor) : option (list itensor) :=
  match shape t with
  | [] => None
  | n :: sh => Some (map (mk_tensor sh) (chunks n (numel sh) (data t)))
  end.

Definition atleast_1d (t : itensor) : itensor :=
  match shape t with
  | [] => mk_tensor [1] (data t)
  | _ => t
  end.

Fixpoint cat_all (t : itensor) (ts : list itensor) : result itensor :=
  match ts with
  | [] => Ok t
  | u :: ts' => r <- cat t u ;; cat_all r ts'
  end.

(** [torch.cat] along the second dimension. *)
Definition cat_dim1 (t : itensor) (ts : list itensor) : result itensor :=
  match shape t with
  | n :: m :: rest =>
      if forallb (fun u =>
                    match shape u with
                    | n' :: _ :: rest' =>
                        Nat.eqb n' n && if list_eq_dec Nat.eq_dec rest' rest then true else false
                    | _ => false
                    end) ts
      then
        let all := t :: ts in
        Ok (mk_tensor
              (n :: fold_right Nat.add 0 (map (fun u => nth 1 (shape u) 0) all) :: rest)
              (List.concat
                 (map (fun r =>
                         List.concat
                           (map (fun u =>
                                   nth r (chunks n (numel (tl (shape u))) (data u)) [])
                                all))
                      (seq 0 n))))
      else Raise RuntimeError
  | _ => Raise RuntimeError
  end.

(** [torch.hstack]: along the first dimension for 1-D tensors, along the
    second otherwise. *)
Definition hstack (ts : list itensor) : result itensor :=
  match map atleast_1d ts with
  | [] => Raise RuntimeError
  | t :: ts' =>
      if Nat.eqb (List.length (shape t)) 1 then cat_all t ts' else cat_dim1 t ts'
  end.

(** The time-major tensor of the given columns. *)
Definition tokens (cols : list (list Z)) : itensor :=
  let T := List.length (hd [] cols) in
  mk_tensor [T; List.length cols]
    (List.concat (map (fun t => map (fun c => nth t c 0%Z) cols) (seq 0 T))).

#[export] Instance engine : TensorEngine := {
  tensor := itensor;
  tadd := pointwise Z.add;
  tsub := pointwise Z.sub;
  tcat := cat;
  thstack := hstack;
  tunbind := unbind;
  tshape := shape;
  of_tokens := tokens
}.

(** *** A recurrent encoder and a decoder to run the code with

    The hidden state after a time step is the hidden state before it plus
    the token read; the per-step outputs are the successive hidden states.
    The decoder hands back the hidden state it was given. *)

Fixpoint run_steps (h : list Z) (rows : list (list Z)) : list (list Z) * list Z :=
  match rows with
  | [] => ([], h)
  | r :: rows' =>
      let h' := map (fun p => (fst p + snd p)%Z) (combine h r) in
      let '(outs, hf) := run_steps h' rows' in
      (h' :: outs, hf)
  end.

Definition run_encoder (m : ModelIO) (h0 : option (list Z)) : result ModelIO :=
  src <- getattr m "source" ;;
  match src with
  | VTuple _ => Raise TypeError
  | VTensor t =>
      match shape t with
      | [T; B] =>
          let h := match h0 with Some h => h | None => repeat 0%Z B end in
          if Nat.eqb (List.length h) B then
            let '(outs, hf) := run_steps h (chunks T B (data t)) in
            Ok [("enc_hidden", VTensor (mk_tensor [1; B; 1] hf));
                ("enc_outputs", VTensor (mk_tensor [T; B; 1] (List.concat outs)))]
          else Raise RuntimeError
      | _ => Raise RuntimeError
      end
  end.

Definition resume_encoder (m : ModelIO) (hidden : option value) : result ModelIO :=
  match hidden with
  | None => run_encoder m None
  | Some (VTensor h) => run_encoder m (Some (data h))
  | Some (VTuple _) => Raise TypeError
  end.

Definition echo_decoder (m : ModelIO) : result ModelIO :=
  h <- getattr m "enc_hidden" ;;
  Ok [("dec_outputs", h)].

#[export] Instance networks : Networks := {
  encoder := fun m => run_encoder m None;
  forward_with_hidden := resume_encoder;
  decoder := echo_decoder
}.

End IntEngine.

(** ** The splitter, described on token lists

    [segments col] cuts [col] in front of every operator marker;
    [pad_segments] is the marking of the pieces that section 4.1 of the
    specification describes. *)

Module SplitSpec.

Fixpoint segments (l : list Z) : list (list Z) :=
  match l with
  | [] => [[]]
  | x :: l' =>
      match segments l' with
      | [] => [[x]]
      | s :: ss =>
          if Z.eqb x Splitter.unk then [] :: (x :: s) :: ss else (x :: s) :: ss
      end
  end.

Fixpoint pad_rest (sos eos : Z) (ss : list (list Z)) : list (list Z) :=
  match ss with
  | [] => []
  | [s] => [sos :: tl s]
  | s :: ss' => (sos :: tl s ++ [eos]) :: pad_rest sos eos ss'
  end.

Definition pad_segments (sos eos : Z) (segs : list (list Z)) : list (list Z) :=
  match segs with
  | [] => []
  | [s0] => [s0]
  | s0 :: ss => (s0 ++ [eos]) :: pad_rest sos eos ss
  end.

(** The position of the last operator marker of a column, if it has one. *)
Definition last_operator (col : list Z) : option nat :=
  match Splitter.operator_indices col with
  | [] => None
  | i :: idx => Some (last idx i)
  end.

(** Whether position [t] of a column holds an operator marker and no later
    position does. *)
Definition is_last_operator (col : list Z) (t : nat) : bool :=
  match nth_error col t with
  | Some x =>
      Z.eqb x Splitter.unk
      && forallb (fun y => negb (Z.eqb y Splitter.unk)) (skipn (S t) col)
  | None => false
  end.

(** The column after the splitter has run on it, and the sub-expressions it
    yields. *)
Definition after_split (col : list Z) : list Z :=
  match last_operator col with
  | Some i => Splitter.set_nth i (hd 0%Z col) col
  | None => col
  end.

Definition sub_expressions (col : list Z) : list (list Z) :=
  pad_segments (hd 0%Z col) (last col 0%Z) (segments col).

(** A column as the splitter expects it: not empty, and not starting with
    an operator marker. *)
Definition padded (col : list Z) : Prop :=
  col <> [] /\ hd Splitter.unk col <> Splitter.unk.

End SplitSpec.

(** ** The reduction, described as a fold

    Section 4.2 of the specification: start with the value of the first
    term, then add or subtract each later term as its operator says. *)

Inductive operator : Type := Plus | Minus.

Definition operator_string (op : operator) : string :=
  match op with
  | Plus => "+"
  | Minus => "-"
  end.

Section ReduceSpec.
Context `{E : TensorEngine} `{N : !Networks}.

Definition apply_operator (op : operator) (x y : tensor) : result tensor :=
  match op with
  | Plus => tadd x y
  | Minus => tsub x y
  end.

Fixpoint fold_terms (acc : tensor) (rest : list (operator * tensor))
  : result tensor :=
  match rest with
  | [] => Ok acc
  | (op, t) :: rest' =>
      r <- apply_operator op acc t ;;
      fold_terms r rest'
  end.

(** [representations] for the terms [e0 :: es] joined by [ops]. *)
Fixpoint interleave (ops : list operator) (es : list ModelIO) : list repr :=
  match ops, es with
  | op :: ops', e :: es' =>
      RStr (operator_string op) :: REnc e :: interleave ops' es'
  | _, _ => []
  end.

Definition torch_op_of (op : operator) : torch_op :=
  match op with
  | Plus => TorchAdd
  | Minus => TorchSubtract
  end.

(** The two keys of [buffer]. *)
Definition buffer_key (key : string) : Prop :=
  key = "enc_hidden" \/ key = "enc_outputs".

Definition buffer_field (key : string) (b : buffer) : option value :=
  if String.eqb key "enc_hidden" then enc_hidden b
  else if String.eqb key "enc_outputs" then enc_outputs b
  else None.

Definition has_tensor (key : string) (e : ModelIO) (t : tensor) : Prop :=
  lookup key e = Some (VTensor t).

(** The reduced partial encoding of one example. *)
Definition partial_encoding (k : nat) (exp : list (list Z)) : result ModelIO :=
  encodings <- mapM encoder (map term_input (map (prefix k) exp)) ;;
  reduce_encodings encodings.

(** A buffer whose hidden state and outputs are single tensors. *)
Definition tensor_buffer (ho : tensor * tensor) : ModelIO :=
  [("enc_hidden", VTensor (fst ho)); ("enc_outputs", VTensor (snd ho))].

(** The policy [offset < 0] on one example, as section 4.3 of the
    specification words it: every sub-expression is encoded up to [k] steps
    before its end and the partial encodings are reduced; encoding resumes
    on the rest of the first sub-expression from the reduced hidden state;
    the outputs are the reduced partial outputs followed by the resumed
    ones, the hidden state is the resumed one. *)
Definition compose_during_encoding (k : nat) (exp : list (list Z))
  : result ModelIO :=
  partial_encodings <- mapM (fun term => encoder (term_input (prefix k term))) exp ;;
  reduced <- reduce_encodings partial_encodings ;;
  first <- list_index exp 0 ;;
  h <- getattr reduced "enc_hidden" ;;
  resumed <- forward_with_hidden (term_input (suffix k first)) (Some h) ;;
  final_hidden <- getattr resumed "enc_hidden" ;;
  reduced_outputs <- getattr reduced "enc_outputs" ;;
  resumed_outputs <- getattr resumed "enc_outputs" ;;
  a <- as_tensor reduced_outputs ;;
  b <- as_tensor resumed_outputs ;;
  final_outputs <- tcat a b ;;
  Ok [("enc_hidden", final_hidden); ("enc_outputs", VTensor final_outputs)].

End ReduceSpec.

(** ** Concrete encodings and batches *)

Module Examples.
Import IntEngine.

(** A tensor of shape 1 x 1 x 1: the hidden state of a one-layer encoder of
    width one on a batch of one. *)
Definition cell (z : Z) : itensor := mk_tensor [1; 1; 1] [z].

Definition no_annotation : itensor := mk_tensor [1] [0%Z].

Definition bag (h o : Z) : ModelIO :=
  [("enc_hidden", VTensor (cell h)); ("enc_outputs", VTensor (cell o))].

(** The encoding of a term for which the encoder reports no outputs. *)
Definition hidden_only (h : Z) : ModelIO :=
  [("enc_hidden", VTensor (cell h))].

(** The encoding of a recurrent encoder with a hidden and a cell state. *)
Definition lstm_bag (h c : Z) : ModelIO :=
  [("enc_hidden", VTuple [cell h; cell c])].

(** [<sos> 3 <unk> 4 <unk> 5 <eos>] with [<sos>] = 1 and [<eos>] = 2. *)
Definition analogy_column : list Z := [1; 3; 0; 4; 0; 5; 2]%Z.

(** The sequence of section 8 of the specification: no operator. *)
Definition plain_column : list Z := [1; 3; 4; 5; 2]%Z.

Definition analogy_batch : Batch :=
  {| source := [analogy_column; [1; 7; 0; 4; 0; 5; 2]%Z];
     annotation := no_annotation |}.

Definition plain_batch : Batch :=
  {| source := [plain_column]; annotation := no_annotation |}.

(** Four operators in the first example, three in the second. *)
Definition uneven_batch : Batch :=
  {| source := [[1; 3; 0; 4; 0; 5; 0; 6; 0; 7; 2]%Z;
                [1; 3; 0; 4; 0; 5; 0; 6; 6; 6; 2]%Z];
     annotation := no_annotation |}.

Definition analogy_items : list item :=
  [Term [[1; 3; 2]%Z] no_annotation; Str "-";
   Term [[1; 4; 2]%Z] no_annotation; Str "+";
   Term [[1; 5; 2]%Z] no_annotation].

(** The second term is one token longer than the others. *)
Definition uneven_items : list item :=
  [Term [[1; 3; 2]%Z] no_annotation; Str "-";
   Term [[1; 4; 6; 2]%Z] no_annotation; Str "+";
   Term [[1; 5; 2]%Z] no_annotation].

End Examples.

(** ** The plain forward pass *)

Section ForwardPass.
Context `{E : TensorEngine} `{N : !Networks}.

(** The teacher-forcing ratio and the decoder called with it; [decoder] of
    [Networks] is this decoder at the ratio 0.0. *)
Variable ratio : Type.
Variable decoder_with : ModelIO -> ratio -> result ModelIO.

(** Modelled from the spec: [ModelIO.set_attributes] (core/models/model_io.py
    is not among the sources), which sets the fields of a dict one after the
    other. *)
Definition set_attributes (kvs : list (string * value)) (m : ModelIO) : ModelIO :=
  fold_left (fun acc kv => set_attribute (fst kv) (snd kv) acc) kvs m.

(** [enc_output] as [forward] hands it to the decoder; [target] is [None]
    when the batch has no attribute of that name. *)
Definition forward_dec_input (enc_output : ModelIO) (batch : Batch)
  (target : option tensor) : ModelIO :=
  let enc_output1 :=
    set_attributes [("source", VTensor (of_tokens (source batch)));
                    ("transform", VTensor (annotation batch))] enc_output in
  match target with
  | Some t => set_attribute "target" (VTensor t) enc_output1
  | None => enc_output1
  end.

(** [forward]. *)
Definition forward (batch : Batch) (target : option tensor) (tf_ratio : ratio)
  : result value :=
  enc_output <- encoder [("source", VTensor (of_tokens (source batch)))] ;;
  dec_output <- decoder_with (forward_dec_input enc_output batch target) tf_ratio ;;
  getattr dec_output "dec_outputs".

End ForwardPass.

(** ** Further descriptions of the splitter and of the reduction *)

Module Rejoin.

(** Whether a column is one the splitter accepts. *)
Definition paddedb (col : list Z) : bool :=
  match col with
  | [] => false
  | x :: _ => negb (Z.eqb x Splitter.unk)
  end.

(** The way back from the sub-expressions of a column: the end markers that
    were appended are taken off and the start markers that replaced an
    operator marker give way to it again. *)
Fixpoint rejoin_rest (subs : list (list Z)) : list Z :=
  match subs with
  | [] => []
  | [s] => Splitter.unk :: tl s
  | s :: rest => Splitter.unk :: tl (removelast s) ++ rejoin_rest rest
  end.

Definition rejoin (subs : list (list Z)) : list Z :=
  match subs with
  | [] => []
  | [s] => s
  | s :: rest => removelast s ++ rejoin_rest rest
  end.

End Rejoin.

Section ReduceMore.
Context `{E : TensorEngine}.

(** A buffer of a recurrent encoder: hidden and cell state, and outputs. *)
Definition lstm_buffer (abo : tensor * tensor * tensor) : ModelIO :=
  [("enc_hidden", VTuple [fst (fst abo); snd (fst abo)]);
   ("enc_outputs", VTensor (snd abo))].

(** An operator string as the loop of [forward_expression] reads it. *)
Definition normalise (s : string) : string :=
  if String.eqb s "+" then "+" else "-".

Definition normalise_item (t : item) : item :=
  match t with
  | Str s => Str (normalise s)
  | Term src ann => Term src ann
  end.

Definition normalise_repr (r : repr) : repr :=
  match r with
  | RStr s => RStr (normalise s)
  | REnc enc => REnc enc
  end.

Definition is_str (t : item) : bool :=
  match t with
  | Str _ => true
  | Term _ _ => false
  end.

(** Whether a field of a bag holds a single tensor. *)
Definition tensor_valued (key : string) (e : ModelIO) : Prop :=
  exists t, lookup key e = Some (VTensor t).

End ReduceMore.

(** ** A recurrent encoder with hidden and cell state *)

Module LstmNetworks.
Import IntEngine.

(** The encoder of [IntEngine], with the hidden state reported as the pair
    of a hidden and a cell state (the cell state repeats the hidden
    state). *)
Definition as_pair (r : ModelIO) : result ModelIO :=
  h <- getattr r "enc_hidden" ;;
  o <- getattr r "enc_outputs" ;;
  match h with
  | VTensor t => Ok [("enc_hidden", VTuple [t; t]); ("enc_outputs", o)]
  | VTuple _ => Raise TypeError
  end.

Definition lstm_encoder (m : ModelIO) : result ModelIO :=
  r <- run_encoder m None ;; as_pair r.

Definition lstm_resume (m : ModelIO) (hidden : option value) : result ModelIO :=
  match hidden with
  | None => r <- run_encoder m None ;; as_pair r
  | Some (VTuple (h :: _)) => r <- run_encoder m (Some (data h)) ;; as_pair r
  | Some _ => Raise TypeError
  end.

Definition networks : Networks := {|
  encoder := lstm_encoder;
  forward_with_hidden := lstm_resume;
  decoder := echo_decoder
|}.

End LstmNetworks.

Module MoreExamples.
Import IntEngine Examples.

(** Two examples whose first sub-expressions have three and four tokens. *)
Definition ragged_batch : Batch :=
  {| source := [analogy_column; [1; 3; 3; 0; 4; 0; 2]%Z];
     annotation := no_annotation |}.

(** The decoder of [IntEngine] under any teacher-forcing ratio. *)
Definition decoder_any_ratio (m : ModelIO) (_ : unit) : result ModelIO :=
  echo_decoder m.

Definition row (l : list Z) : itensor := mk_tensor [1; List.length l; 1] l.

End MoreExamples.

(** * Properties of the splitter *)

Section SplitterFacts.
Import Splitter SplitSpec.

Lemma segments_nonempty (l : list Z) : segments l <> [].
Proof.
  destruct l as [|x l]; simpl; [discriminate|].
  destruct (segments l); [discriminate|].
  destruct (Z.eqb x unk); discriminate.
Qed.

Lemma concat_segments (l : list Z) : List.concat (segments l) = l.
Proof.
  induction l as [|x l IH]; simpl; [reflexivity|].
  destruct (segments l) as [|s ss] eqn:Hs.
  - exfalso. eapply segments_nonempty; eauto.
  - destruct (Z.eqb x unk); simpl in *; now rewrite IH.
Qed.

Lemma slice_app_prefix (p l : list Z) (start : nat) :
  start <= List.length p ->
  slice start (List.length p - start) (p ++ l) = skipn start p.
Proof.
  intros H. unfold slice.
  rewrite skipn_app.
  replace (start - List.length p) with 0 by lia. simpl.
  rewrite firstn_app, length_skipn.
  replace (List.length p - start - (List.length p - start)) with 0 by lia.
  simpl. rewrite app_nil_r.
  apply firstn_all2. rewrite length_skipn. lia.
Qed.

Lemma slice_to_end (p l : list Z) (start : nat) :
  start <= List.length p ->
  slice start (List.length (p ++ l) - start) (p ++ l) = skipn start p ++ l.
Proof.
  intros H. unfold slice.
  rewrite firstn_all2.
  - rewrite skipn_app. replace (start - List.length p) with 0 by lia. reflexivity.
  - rewrite length_skipn. lia.
Qed.

Lemma read_tensor_split (l p : list Z) (start : nat) :
  start <= List.length p ->
  map (read (p ++ l))
      (tensor_split_from start (List.length (p ++ l))
         (nonzero_from (List.length p) l))
  = match segments l with
    | s :: ss => (skipn start p ++ s) :: ss
    | [] => []
    end.
Proof.
  revert p start. induction l as [|x l IH]; intros p start H.
  - simpl. now rewrite slice_to_end.
  - simpl nonzero_from. simpl segments.
    assert (Hp : p ++ x :: l = (p ++ [x]) ++ l) by now rewrite <- app_assoc.
    assert (Hl : List.length (p ++ [x]) = S (List.length p))
      by (rewrite length_app; simpl; lia).
    destruct (segments l) as [|s ss] eqn:Hs.
    { exfalso. eapply segments_nonempty; eauto. }
    destruct (Z.eqb x unk) eqn:Hx.
    + simpl tensor_split_from. simpl map.
      rewrite slice_app_prefix by assumption. rewrite app_nil_r.
      f_equal.
      rewrite Hp, <- Hl.
      rewrite (IH (p ++ [x]) (List.length p)) by lia.
      rewrite skipn_app, skipn_all, Nat.sub_diag. reflexivity.
    + rewrite Hp, <- Hl.
      rewrite (IH (p ++ [x]) start) by lia.
      rewrite skipn_app. replace (start - List.length p) with 0 by lia.
      simpl. now rewrite <- app_assoc.
Qed.

Lemma read_views (col : list Z) :
  map (read col) (tensor_split (List.length col) (operator_indices col))
  = segments col.
Proof.
  pose proof (read_tensor_split col [] 0 (Nat.le_refl 0)) as H.
  simpl in H. unfold tensor_split, operator_indices. rewrite H.
  destruct (segments col); reflexivity.
Qed.

Lemma segments_tail (l : list Z) :
  Forall (fun seg => hd_error seg = Some unk) (tl (segments l)).
Proof.
  induction l as [|x l IH]; simpl; [constructor|].
  destruct (segments l) as [|s ss] eqn:Hs; [constructor|].
  destruct (Z.eqb x unk) eqn:Hx; simpl in *; [|assumption].
  constructor; [|assumption].
  apply Z.eqb_eq in Hx. now subst.
Qed.

Lemma segments_no_unk (l : list Z) :
  ~ In unk (hd [] (segments l))
  /\ Forall (fun seg => ~ In unk (tl seg)) (tl (segments l)).
Proof.
  induction l as [|x l [IH1 IH2]]; simpl.
  - split; [tauto|constructor].
  - destruct (segments l) as [|s ss] eqn:Hs.
    { exfalso. eapply segments_nonempty; eauto. }
    destruct (Z.eqb x unk) eqn:Hx; simpl in *.
    + split; [tauto|]. constructor; assumption.
    + split; [|assumption]. apply Z.eqb_neq in Hx.
      intros [H|H]; [congruence|tauto].
Qed.

Lemma segments_head_padded (col : list Z) :
  padded col -> hd [] (segments col) <> [].
Proof.
  intros [Hne Hhd]. destruct col as [|x l]; [congruence|].
  simpl in *. destruct (segments l) as [|s ss]; [discriminate|].
  destruct (Z.eqb x unk) eqn:Hx.
  - apply Z.eqb_eq in Hx. congruence.
  - discriminate.
Qed.

Definition good (col : list Z) (r : tref) : Prop :=
  exists s l, r = View s l /\ slice s l col <> [].

Lemma views_are_views (start total : nat) (idx : list nat) :
  Forall (fun r => exists s l, r = View s l) (tensor_split_from start total idx).
Proof.
  revert start. induction idx as [|i idx IH]; intros start; simpl.
  - constructor; [eauto|constructor].
  - constructor; [eauto|apply IH].
Qed.

Lemma last_cons_default {A : Type} (x d : A) (l : list A) :
  last (x :: l) d = last l x.
Proof.
  revert x d. induction l as [|y l IH]; intros x d; [reflexivity|].
  change (last (x :: y :: l) d) with (last (y :: l) d).
  now rewrite !IH.
Qed.

Lemma last_tensor_split (start total : nat) (idx : list nat) (d : tref) :
  last (tensor_split_from start total idx) d
  = View (last idx start) (total - last idx start).
Proof.
  revert start d. induction idx as [|i idx IH]; intros start d; [reflexivity|].
  simpl tensor_split_from.
  now rewrite last_cons_default, IH, last_cons_default.
Qed.

Lemma slice_set_nth (col : list Z) (s l : nat) (v : Z) :
  slice s l col <> [] ->
  slice s l (set_nth s v col) = v :: tl (slice s l col).
Proof.
  revert s. induction col as [|x c IH]; intros s H.
  - exfalso. apply H. unfold slice. now rewrite skipn_nil, firstn_nil.
  - destruct s as [|s].
    + destruct l as [|l]; [exfalso; now apply H|]. reflexivity.
    + apply (IH s H).
Qed.

Lemma rewrite_append (col : list Z) (sos eos : tref) (v e : Z) :
  hd 0%Z (read col sos) = v ->
  read col eos = [e] ->
  forall rest, rest <> [] -> Forall (good col) rest ->
  exists col' subs,
    rewrite_unk col sos (append_eos col eos rest) = Ok (col', subs)
    /\ col' = set_nth (match last rest (View 0 0) with
                       | View s _ => s
                       | Own _ => 0
                       end) v col
    /\ map (read col') subs = pad_rest v e (map (read col) rest).
Proof.
  intros Hsos Heos rest. induction rest as [|r rest IH]; intros Hne Hgood.
  - congruence.
  - pose proof (Forall_inv_tail Hgood) as Hrest.
    destruct (Forall_inv Hgood) as [s [l [-> Hr]]].
    destruct rest as [|r2 rest].
    + simpl. rewrite Hsos.
      destruct (Nat.eqb l 0) eqn:Hl.
      { apply Nat.eqb_eq in Hl. subst l. exfalso. now apply Hr. }
      simpl. eexists _, _. split; [reflexivity|]. split; [reflexivity|].
      simpl. now rewrite slice_set_nth.
    + destruct (IH ltac:(discriminate) Hrest) as [col' [subs [Hrw [Hcol Hrd]]]].
      change (append_eos col eos (View s l :: r2 :: rest))
        with (Own (read col (View s l) ++ read col eos)
                :: append_eos col eos (r2 :: rest)).
      remember (append_eos col eos (r2 :: rest)) as A eqn:HA.
      simpl. rewrite Hsos, Heos.
      destruct (slice s l col) as [|y ys] eqn:Hsl; [congruence|].
      simpl. rewrite Hrw. simpl.
      eexists _, _. split; [reflexivity|]. split.
      * rewrite Hcol. reflexivity.
      * simpl map at 1. rewrite Hrd.
        reflexivity.
Qed.

Lemma list_index_last {A : Type} (l : list A) (d : A) :
  l <> [] -> list_index l (List.length l - 1) = Ok (last l d).
Proof.
  unfold list_index. induction l as [|x l IH]; intros H; [congruence|].
  destruct l as [|y l]; [reflexivity|].
  replace (List.length (x :: y :: l) - 1) with (S (List.length (y :: l) - 1))
    by (simpl; lia).
  change (last (x :: y :: l) d) with (last (y :: l) d).
  simpl nth_error. apply IH. discriminate.
Qed.

Lemma slice_last (col : list Z) :
  col <> [] -> slice (List.length col - 1) 1 col = [last col 0%Z].
Proof.
  induction col as [|x c IH]; intros H; [congruence|].
  destruct c as [|y c]; [reflexivity|].
  replace (List.length (x :: y :: c) - 1) with (S (List.length (y :: c) - 1))
    by (simpl; lia).
  change (last (x :: y :: c) 0%Z) with (last (y :: c) 0%Z).
  rewrite <- IH by discriminate. reflexivity.
Qed.

Lemma slice_nonempty_len (col : list Z) (s l : nat) :
  slice s l col <> [] -> l <> 0 /\ s < List.length col.
Proof.
  intros H. split.
  - intros ->. now apply H.
  - destruct (Nat.lt_ge_cases s (List.length col)) as [|Hge]; [assumption|].
    exfalso. apply H. unfold slice. rewrite skipn_all2 by assumption.
    apply firstn_nil.
Qed.

Lemma in_last_cons {A : Type} (x : A) (l : list A) (d : A) :
  l <> [] -> In (last (x :: l) d) l.
Proof.
  intros H. rewrite last_cons_default.
  destruct (@exists_last _ l H) as [l' [a ->]].
  rewrite last_last. apply in_or_app. right. now left.
Qed.

(** What the body of the loop does on one column: the column afterwards, and
    the sub-expressions read from it. *)
Lemma split_column_spec (col : list Z) :
  padded col ->
  exists col' subs,
    split_column col = Ok (col', subs)
    /\ col' = match last_operator col with
              | Some i => set_nth i (hd 0%Z col) col
              | None => col
              end
    /\ map (read col') subs
       = pad_segments (hd 0%Z col) (last col 0%Z) (segments col).
Proof.
  intros Hpad. pose proof Hpad as [Hne Hhd].
  pose proof (read_views col) as Hread.
  pose proof (segments_head_padded col Hpad) as Hs0.
  pose proof (segments_tail col) as Htl.
  unfold split_column, last_operator.
  unfold tensor_split in *.
  set (T := List.length col) in *.
  assert (HT : T <> 0) by (unfold T; destruct col; [congruence|discriminate]).
  pose proof (views_are_views 0 T (operator_indices col)) as Hviews.
  pose proof (fun d => last_tensor_split 0 T (operator_indices col) d) as Hlast.
  destruct (operator_indices col) as [|i idx] eqn:Hidx.
  - (* no operator marker *)
    simpl tensor_split_from in *. rewrite Nat.sub_0_r in *. simpl in Hread.
    cbn [list_index nth_error bind first_elt].
    apply Nat.eqb_neq in HT. rewrite HT. cbn [bind List.length Nat.sub].
    cbn [list_index nth_error bind last_elt]. rewrite HT.
    cbn [bind append_eos].
    exists col, [View 0 T]. split; [reflexivity|]. split; [reflexivity|].
    rewrite <- Hread. reflexivity.
  - simpl tensor_split_from in *.
    set (vs := tensor_split_from i T idx) in *.
    assert (Hvs : vs <> []) by (unfold vs; destruct idx; discriminate).
    destruct (segments col) as [|s0 ss] eqn:Hseg; [discriminate|].
    simpl in Hread. injection Hread as Hr0 Hrs. simpl in Hs0, Htl.
    assert (Hgood : Forall (good col) vs).
    { apply Forall_forall. intros r Hr.
      pose proof (Forall_inv_tail Hviews) as Hv.
      rewrite Forall_forall in Hv. destruct (Hv _ Hr) as [s [l ->]].
      exists s, l. split; [reflexivity|].
      apply (in_map (read col)) in Hr. rewrite Hrs in Hr.
      rewrite Forall_forall in Htl. specialize (Htl _ Hr).
      simpl in Htl. intros Habs. rewrite Habs in Htl. discriminate. }
    assert (Hl0 : slice 0 (i - 0) col <> []) by congruence.
    destruct (slice_nonempty_len _ _ _ Hl0) as [Hl0' _].
    cbn [list_index nth_error bind first_elt].
    apply Nat.eqb_neq in Hl0'. rewrite Hl0'. cbn [bind].
    rewrite (list_index_last _ (View 0 0)) by discriminate.
    rewrite Hlast. cbn [bind last_elt].
    remember (last (i :: idx) 0) as L eqn:HL.
    assert (Hin : In (View L (T - L)) vs).
    { rewrite <- (Hlast (View 0 0)). now apply in_last_cons. }
    rewrite Forall_forall in Hgood. pose proof (Hgood _ Hin) as [s [l [Heq Hsl]]].
    injection Heq as <- <-.
    destruct (slice_nonempty_len _ _ _ Hsl) as [Hll Hls].
    apply Nat.eqb_neq in Hll. rewrite Hll. cbn [bind].
    set (eos := View _ 1).
    assert (Heos : read col eos = [last col 0%Z]).
    { unfold eos, read.
      replace (L + (T - L) - 1)
        with (List.length col - 1) by (unfold T in *; lia).
      now apply slice_last. }
    assert (Hsos : hd 0%Z (read col (View 0 1)) = hd 0%Z col).
    { destruct col; [congruence|reflexivity]. }
    rewrite <- Forall_forall in Hgood.
    destruct (rewrite_append col (View 0 1) eos _ _ Hsos Heos vs Hvs Hgood)
      as [col' [subs [Hrw [Hcol Hrd]]]].
    destruct vs as [|v1 vs'] eqn:Hvseq; [congruence|].
    change (append_eos col eos (View 0 (i - 0) :: v1 :: vs'))
      with (Own (read col (View 0 (i - 0)) ++ read col eos)
              :: append_eos col eos (v1 :: vs')).
    cbv iota. rewrite Hrw. cbn [bind].
    exists col', (Own (read col (View 0 (i - 0)) ++ read col eos) :: subs).
    split; [reflexivity|]. split.
    + rewrite Hcol. specialize (Hlast (View 0 0)).
      rewrite last_cons_default in Hlast.
      assert (Hl2 : last (v1 :: vs') (View 0 0) = last (v1 :: vs') (View 0 (i - 0))).
      { now rewrite !last_cons_default. }
      rewrite Hl2, Hlast, HL. now rewrite last_cons_default.
    + clearbody eos. cbn [map read]. rewrite Hrd, Heos, Hrs, Hr0.
      destruct ss as [|s1 ss']; [discriminate|]. reflexivity.
Qed.

Lemma split_batch_spec (source : list (list Z)) :
  Forall padded source ->
  split_and_pad_expressions source
  = Ok (map after_split source, map sub_expressions source).
Proof.
  intros H. unfold split_and_pad_expressions.
  assert (Hm : mapM (fun col =>
                       '(col', subs) <- split_column col ;;
                       Ok (col', map (read col') subs)) source
               = Ok (map (fun col => (after_split col, sub_expressions col)) source)).
  { induction H as [|col source Hc Hs IH]; [reflexivity|].
    destruct (split_column_spec col Hc) as [col' [subs [Hsp [Hcol Hrd]]]].
    simpl. rewrite Hsp. simpl. rewrite IH. simpl.
    rewrite Hrd, Hcol. reflexivity. }
  rewrite Hm. simpl. now rewrite !map_map.
Qed.

Lemma nth_error_pad_rest (sos eos : Z) (ss : list (list Z)) (j : nat) (seg : list Z) :
  nth_error ss j = Some seg ->
  nth_error (pad_rest sos eos ss) j
  = Some ((sos :: tl seg) ++ if (S j <? List.length ss)%nat then [eos] else []).
Proof.
  revert j. induction ss as [|s ss IH]; intros j H.
  - destruct j; discriminate.
  - destruct ss as [|s2 ss].
    + destruct j as [|j]; [|destruct j; discriminate].
      injection H as ->. simpl. now rewrite app_nil_r.
    + destruct j as [|j].
      * injection H as ->. reflexivity.
      * change (pad_rest sos eos (s :: s2 :: ss))
          with ((sos :: tl s ++ [eos]) :: pad_rest sos eos (s2 :: ss)).
        cbn [nth_error]. rewrite (IH j H). reflexivity.
Qed.

Lemma nth_error_pad_segments (sos eos : Z) (segs : list (list Z)) (j : nat)
  (seg : list Z) :
  nth_error segs j = Some seg ->
  nth_error (pad_segments sos eos segs) j
  = Some ((if Nat.eqb j 0 then seg else sos :: tl seg)
            ++ if (S j <? List.length segs)%nat then [eos] else []).
Proof.
  intros H. destruct segs as [|s0 ss]; [destruct j; discriminate|].
  destruct ss as [|s1 ss].
  - destruct j as [|j]; [|destruct j; discriminate].
    injection H as ->. simpl. now rewrite app_nil_r.
  - destruct j as [|j].
    + injection H as ->. reflexivity.
    + change (pad_segments sos eos (s0 :: s1 :: ss))
        with ((s0 ++ [eos]) :: pad_rest sos eos (s1 :: ss)).
      cbn [nth_error]. simpl in H. rewrite (nth_error_pad_rest _ _ _ _ _ H).
      reflexivity.
Qed.

Lemma length_pad_rest (sos eos : Z) (ss : list (list Z)) :
  List.length (pad_rest sos eos ss) = List.length ss.
Proof.
  induction ss as [|s ss IH]; [reflexivity|].
  destruct ss as [|s2 ss]; [reflexivity|].
  change (pad_rest sos eos (s :: s2 :: ss))
    with ((sos :: tl s ++ [eos]) :: pad_rest sos eos (s2 :: ss)).
  cbn [List.length]. now rewrite IH.
Qed.

Lemma length_pad_segments (sos eos : Z) (segs : list (list Z)) :
  List.length (pad_segments sos eos segs) = List.length segs.
Proof.
  destruct segs as [|s0 ss]; [reflexivity|].
  destruct ss as [|s1 ss]; [reflexivity|].
  change (pad_segments sos eos (s0 :: s1 :: ss))
    with ((s0 ++ [eos]) :: pad_rest sos eos (s1 :: ss)).
  cbn [List.length]. now rewrite length_pad_rest.
Qed.

Lemma segment_shape (col : list Z) (j : nat) (seg : list Z) :
  nth_error (segments col) j = Some seg ->
  if Nat.eqb j 0 then ~ In unk seg
  else exists rest, seg = unk :: rest /\ ~ In unk rest.
Proof.
  intros H. pose proof (segments_tail col) as Ht.
  pose proof (segments_no_unk col) as [Hn0 Hn].
  destruct (segments col) as [|s0 ss]; [destruct j; discriminate|].
  destruct j as [|j]; simpl in *.
  - now injection H as ->.
  - apply nth_error_In in H. rewrite Forall_forall in Ht, Hn.
    specialize (Ht _ H). specialize (Hn _ H).
    destruct seg as [|x rest]; [discriminate|].
    injection Ht as ->. now exists rest.
Qed.

Lemma in_nonzero_from (l : list Z) (k i : nat) :
  In i (nonzero_from k l) <-> k <= i /\ nth_error l (i - k) = Some unk.
Proof.
  revert k. induction l as [|x l IH]; intros k.
  - simpl. split; [tauto|]. intros [_ H]. destruct (i - k); discriminate.
  - simpl nonzero_from.
    assert (Hstep : S k <= i -> nth_error (x :: l) (i - k) = nth_error l (i - S k)).
    { intros Hle. replace (i - k) with (S (i - S k)) by lia. reflexivity. }
    destruct (Z.eqb x unk) eqn:Hx.
    + apply Z.eqb_eq in Hx. subst x. simpl In. rewrite IH. split.
      * intros [<-|[Hle H]].
        -- split; [lia|]. now rewrite Nat.sub_diag.
        -- split; [lia|]. now rewrite Hstep.
      * intros [Hle H]. destruct (Nat.eq_dec k i) as [|Hne]; [now left|].
        right. split; [lia|]. rewrite <- Hstep by lia. assumption.
    + apply Z.eqb_neq in Hx. rewrite IH. split.
      * intros [Hle H]. split; [lia|]. now rewrite Hstep.
      * intros [Hle H]. destruct (Nat.eq_dec k i) as [<-|Hne].
        -- rewrite Nat.sub_diag in H. simpl in H. congruence.
        -- split; [lia|]. rewrite <- Hstep by lia. assumption.
Qed.

Lemma in_last {A : Type} (l : list A) (d : A) : l <> [] -> In (last l d) l.
Proof.
  intros H. destruct (@exists_last _ l H) as [l' [a ->]].
  rewrite last_last. apply in_or_app. right. now left.
Qed.

Lemma nonzero_from_le_last (l : list Z) (k i d : nat) :
  In i (nonzero_from k l) -> i <= last (nonzero_from k l) d.
Proof.
  revert k d. induction l as [|x l IH]; intros k d; [intros []|].
  simpl nonzero_from. destruct (Z.eqb x unk); [|apply IH].
  rewrite last_cons_default. intros [<-|H]; [|now apply IH].
  destruct (nonzero_from (S k) l) as [|j idx] eqn:Hidx; [reflexivity|].
  assert (Hin : In (last (j :: idx) k) (nonzero_from (S k) l)).
  { rewrite Hidx. apply in_last. discriminate. }
  apply in_nonzero_from in Hin. lia.
Qed.

Lemma nth_error_skipn_in (l : list Z) (n : nat) (y : Z) :
  In y (skipn n l) <-> exists t, n <= t /\ nth_error l t = Some y.
Proof.
  split.
  - intros H. apply In_nth_error in H as [m Hm].
    rewrite nth_error_skipn in Hm. exists (n + m). split; [lia|assumption].
  - intros [t [Hle H]]. apply (nth_error_In _ (t - n)).
    rewrite nth_error_skipn. now replace (n + (t - n)) with t by lia.
Qed.

(** [last_operator] is the one position that holds an operator marker and
    has none after it. *)
Lemma last_operator_spec (col : list Z) (t : nat) :
  last_operator col = Some t <-> is_last_operator col t = true.
Proof.
  unfold last_operator, is_last_operator, operator_indices.
  assert (Hin : forall i, In i (nonzero_from 0 col) <-> nth_error col i = Some unk).
  { intros i. rewrite in_nonzero_from, Nat.sub_0_r. split; [tauto|].
    intros H. split; [lia|assumption]. }
  assert (Hlater : forall i,
             forallb (fun y => negb (Z.eqb y unk)) (skipn (S i) col) = true
             <-> forall u, i < u -> nth_error col u <> Some unk).
  { intros i. rewrite forallb_forall. split.
    - intros H u Hu Hnth.
      assert (Hy : In unk (skipn (S i) col))
        by (apply nth_error_skipn_in; exists u; split; [lia|assumption]).
      specialize (H _ Hy). now rewrite Z.eqb_refl in H.
    - intros H y Hy. apply nth_error_skipn_in in Hy as [u [Hu Hnth]].
      destruct (Z.eqb y unk) eqn:Hyu; [|reflexivity].
      apply Z.eqb_eq in Hyu. subst y. exfalso. apply (H u); [lia|assumption]. }
  destruct (nonzero_from 0 col) as [|j idx] eqn:Hidx.
  - split; [discriminate|].
    destruct (nth_error col t) as [x|] eqn:Hx; [|discriminate].
    intros H. apply andb_prop in H as [H _]. apply Z.eqb_eq in H. subst x.
    apply Hin in Hx. destruct Hx.
  - assert (Hl : In (last idx j) (j :: idx)).
    { rewrite <- (last_cons_default j 0). apply in_last. discriminate. }
    assert (Hmax : forall i, In i (j :: idx) -> i <= last idx j).
    { intros i Hi. rewrite <- (last_cons_default j 0), <- Hidx.
      apply nonzero_from_le_last. now rewrite Hidx. }
    split.
    + intros H. injection H as <-.
      apply Hin in Hl. rewrite Hl, Z.eqb_refl. simpl.
      apply Hlater. intros u Hu Hnth. apply Hin, Hmax in Hnth. lia.
    + destruct (nth_error col t) as [x|] eqn:Hx; [|discriminate].
      intros H. apply andb_prop in H as [H1 H2].
      apply Z.eqb_eq in H1. subst x.
      pose proof (proj1 (Hlater t) H2) as Hno.
      apply Hin in Hx. pose proof (Hmax _ Hx) as Hle.
      destruct (Nat.eq_dec t (last idx j)) as [->|Hne]; [reflexivity|].
      exfalso. apply (Hno (last idx j)); [lia|]. now apply Hin.
Qed.

Lemma nth_error_set_nth (l : list Z) (i t : nat) (v : Z) :
  i < List.length l ->
  nth_error (set_nth i v l) t = if Nat.eqb t i then Some v else nth_error l t.
Proof.
  revert i t. induction l as [|x l IH]; intros i t H; [simpl in H; lia|].
  destruct i as [|i]; destruct t as [|t]; try reflexivity.
  simpl in *. apply IH. lia.
Qed.

(** The column after the split, position by position. *)
Lemma after_split_nth (col : list Z) (t : nat) :
  nth_error (after_split col) t
  = if is_last_operator col t then Some (hd 0%Z col) else nth_error col t.
Proof.
  unfold after_split.
  destruct (last_operator col) as [i|] eqn:Hlo.
  - pose proof (proj1 (last_operator_spec col i) Hlo) as Hi.
    assert (Hlen : i < List.length col).
    { apply nth_error_Some. unfold is_last_operator in Hi.
      destruct (nth_error col i); [discriminate|discriminate Hi]. }
    rewrite nth_error_set_nth by assumption.
    destruct (Nat.eqb t i) eqn:Hti.
    + apply Nat.eqb_eq in Hti. subst t. now rewrite Hi.
    + destruct (is_last_operator col t) eqn:Ht; [|reflexivity].
      apply last_operator_spec in Ht. rewrite Hlo in Ht. injection Ht as <-.
      now rewrite Nat.eqb_refl in Hti.
  - destruct (is_last_operator col t) eqn:Ht; [|reflexivity].
    apply last_operator_spec in Ht. congruence.
Qed.

Lemma last_app_nonempty {A : Type} (l l' : list A) (d : A) :
  l' <> [] -> last (l ++ l') d = last l' d.
Proof.
  intros H. induction l as [|x l IH]; [reflexivity|].
  simpl app. destruct (l ++ l') eqn:Happ.
  - apply app_eq_nil in Happ as [_ ?]. congruence.
  - rewrite <- IH. reflexivity.
Qed.

Lemma last_concat (segs : list (list Z)) (d : Z) :
  last segs [] <> [] ->
  List.concat segs <> [] /\ last (List.concat segs) d = last (last segs []) d.
Proof.
  induction segs as [|s segs IH]; intros H; [now simpl in H|].
  destruct segs as [|s2 segs].
  - simpl in *. rewrite app_nil_r. now split.
  - change (last (s :: s2 :: segs) []) with (last (s2 :: segs) []) in *.
    destruct (IH H) as [Hne Hl].
    change (List.concat (s :: s2 :: segs)) with (s ++ List.concat (s2 :: segs)).
    split.
    + intros Habs. apply app_eq_nil in Habs as [_ ?]. congruence.
    + now rewrite last_app_nonempty.
Qed.

Lemma last_pad_rest (sos eos : Z) (ss : list (list Z)) (d : list Z) :
  ss <> [] -> last (pad_rest sos eos ss) d = sos :: tl (last ss []).
Proof.
  revert d. induction ss as [|s ss IH]; intros d H; [congruence|].
  destruct ss as [|s2 ss]; [reflexivity|].
  change (pad_rest sos eos (s :: s2 :: ss))
    with ((sos :: tl s ++ [eos]) :: pad_rest sos eos (s2 :: ss)).
  rewrite last_cons_default. now rewrite IH.
Qed.

Lemma sub_expressions_last (col : list Z) :
  padded col -> last col 0%Z <> unk ->
  last (last (sub_expressions col) []) 0%Z = last col 0%Z.
Proof.
  intros Hpad Hlast. unfold sub_expressions.
  pose proof (concat_segments col) as Hc.
  pose proof (segments_tail col) as Ht.
  destruct (segments col) as [|s0 ss] eqn:Hseg.
  { exfalso. eapply segments_nonempty; eauto. }
  destruct ss as [|s1 ss].
  - simpl in *. rewrite app_nil_r in Hc. now subst.
  - change (pad_segments (hd 0%Z col) (last col 0%Z) (s0 :: s1 :: ss))
      with ((s0 ++ [last col 0%Z]) :: pad_rest (hd 0%Z col) (last col 0%Z) (s1 :: ss)).
    rewrite last_cons_default, last_pad_rest by discriminate.
    simpl in Ht.
    assert (Hin : In (last (s1 :: ss) []) (s1 :: ss)) by (apply in_last; discriminate).
    rewrite Forall_forall in Ht. specialize (Ht _ Hin).
    assert (Hl : last (s0 :: s1 :: ss) [] = last (s1 :: ss) []) by reflexivity.
    destruct (last (s1 :: ss) []) as [|x rest] eqn:Hsl; [discriminate|].
    injection Ht as ->.
    destruct (last_concat (s0 :: s1 :: ss) 0%Z) as [_ Hlc].
    { rewrite Hl. discriminate. }
    rewrite Hc, Hl in Hlc. rewrite Hlc in *.
    destruct rest as [|r rest]; [now simpl in Hlast|]. reflexivity.
Qed.

Lemma sub_expressions_start (col sub : list Z) :
  padded col -> In sub (sub_expressions col) -> hd_error sub = hd_error col.
Proof.
  intros Hpad Hin. apply In_nth_error in Hin as [j Hj].
  assert (Hlt : j < List.length (segments col)).
  { unfold sub_expressions in Hj.
    rewrite <- (length_pad_segments (hd 0%Z col) (last col 0%Z)).
    apply nth_error_Some. congruence. }
  destruct (nth_error (segments col) j) as [seg|] eqn:Hseg;
    [|apply nth_error_None in Hseg; lia].
  unfold sub_expressions in Hj.
  rewrite (nth_error_pad_segments _ _ _ _ _ Hseg) in Hj. injection Hj as <-.
  pose proof (segments_head_padded col Hpad) as Hs0.
  pose proof (concat_segments col) as Hc.
  destruct Hpad as [Hne _]. destruct col as [|x col']; [congruence|].
  destruct j as [|j]; [|reflexivity].
  destruct (segments (x :: col')) as [|s0 ss]; [discriminate|].
  injection Hseg as ->. simpl in Hs0, Hc.
  destruct seg as [|y seg']; [congruence|].
  simpl in Hc. injection Hc as -> _. reflexivity.
Qed.

Lemma length_segments (l : list Z) :
  List.length (segments l) = S (count_occ Z.eq_dec l unk).
Proof.
  induction l as [|x l IH]; [reflexivity|].
  simpl. destruct (segments l) as [|s ss] eqn:Hs; [discriminate|].
  destruct (Z.eqb x unk) eqn:Hx.
  - apply Z.eqb_eq in Hx. subst x.
    destruct (Z.eq_dec unk unk); [|congruence]. simpl in *. lia.
  - apply Z.eqb_neq in Hx.
    destruct (Z.eq_dec x unk); [congruence|]. simpl in *. lia.
Qed.

(** C5 (as amended).  On a batch whose columns are not empty and do not
    start with an operator marker, the splitter returns, for every column,
    one sub-expression per piece of the column cut in front of its operator
    markers, in order.  The first piece is kept as it is, start marker
    included; every later piece has its leading operator marker replaced by
    the start marker; every sub-expression but the last has the end marker
    appended, so the first gains one exactly when the column holds an
    operator marker; the last keeps the end marker of the column. *)
Theorem split_yields_marked_sub_expressions (source : list (list Z)) :
  Forall padded source ->
  exists source',
    split_and_pad_expressions source = Ok (source', map sub_expressions source)
    /\ forall col, In col source ->
         let segs := segments col in
         let subs := sub_expressions col in
         List.concat segs = col
         /\ List.length segs = S (count_occ Z.eq_dec col unk)
         /\ List.length subs = List.length segs
         /\ (forall j seg, nth_error segs j = Some seg ->
               (if Nat.eqb j 0 then ~ In unk seg
                else exists rest, seg = unk :: rest /\ ~ In unk rest)
               /\ nth_error subs j
                  = Some ((if Nat.eqb j 0 then seg else hd 0%Z col :: tl seg)
                            ++ if (S j <? List.length segs)%nat
                               then [last col 0%Z] else []))
         /\ (forall sub, In sub subs -> hd_error sub = hd_error col)
         /\ (last col 0%Z <> unk -> last (last subs []) 0%Z = last col 0%Z).
Proof.
  intros H. exists (map after_split source).
  split; [now apply split_batch_spec|].
  intros col Hin segs subs.
  rewrite Forall_forall in H. specialize (H _ Hin).
  split; [apply concat_segments|].
  split; [apply length_segments|].
  split; [apply length_pad_segments|].
  split; [|split].
  - intros j seg Hj. split.
    + now apply (segment_shape col).
    + now apply nth_error_pad_segments.
  - intros sub Hs. now apply (sub_expressions_start col).
  - now apply sub_expressions_last.
Qed.

(** C10 (as amended).  The splitter writes through its views into the
    caller's tensor: after the call the position of the last operator
    marker of every column holds the start marker of that column, and all
    other positions, those of the earlier operator markers among them, hold
    what they held before. *)
Theorem split_rewrites_last_operator_only (source : list (list Z)) :
  Forall padded source ->
  exists source' expressions,
    split_and_pad_expressions source = Ok (source', expressions)
    /\ List.length source' = List.length source
    /\ forall c col, nth_error source c = Some col ->
         exists col',
           nth_error source' c = Some col'
           /\ forall t, nth_error col' t
                        = if is_last_operator col t then Some (hd 0%Z col)
                          else nth_error col t.
Proof.
  intros H. exists (map after_split source), (map sub_expressions source).
  split; [now apply split_batch_spec|].
  split; [apply length_map|].
  intros c col Hc. exists (after_split col). split.
  - now apply map_nth_error.
  - apply after_split_nth.
Qed.

End SplitterFacts.

(** * Properties of the reduction and of the composition policies *)

Section ReducerFacts.
Context `{E : TensorEngine} `{N : !Networks}.

Lemma apply_op_operator (op : operator) (x y : tensor) :
  apply_op (torch_op_of op) x y = apply_operator op x y.
Proof. destruct op; reflexivity. Qed.

Lemma reduce_step_pair (buf : buffer) (so : option torch_op) (op : operator)
  (e : ModelIO) :
  reduce_step (reduce_step (buf, so) (RStr (operator_string op))) (REnc e)
  = ({| enc_hidden := operate_field (torch_op_of op) (enc_hidden buf) e "enc_hidden";
        enc_outputs := operate_field (torch_op_of op) (enc_outputs buf) e "enc_outputs" |},
     None).
Proof. destruct op; reflexivity. Qed.

Lemma buffer_field_operate (key : string) (op : operator) (buf : buffer)
  (e : ModelIO) :
  buffer_key key ->
  buffer_field key
    {| enc_hidden := operate_field (torch_op_of op) (enc_hidden buf) e "enc_hidden";
       enc_outputs := operate_field (torch_op_of op) (enc_outputs buf) e "enc_outputs" |}
  = operate_field (torch_op_of op) (buffer_field key buf) e key.
Proof. intros [-> | ->]; reflexivity. Qed.

Lemma buffer_field_load (key : string) (e : ModelIO) :
  buffer_key key ->
  buffer_field key
    {| enc_hidden := load_field e "enc_hidden";
       enc_outputs := load_field e "enc_outputs" |}
  = lookup key e.
Proof. intros [-> | ->]; reflexivity. Qed.

(** Once a field of the buffer is [None] it stays so while every term is
    joined by an operator. *)
Lemma fold_stays_none (key : string) (ops : list operator) :
  buffer_key key ->
  forall (es : list ModelIO) (buf : buffer),
    buffer_field key buf = None ->
    buffer_field key (fst (fold_left reduce_step (interleave ops es) (buf, None)))
    = None.
Proof.
  intros Hk. induction ops as [|op ops IH]; intros es buf Hb; [assumption|].
  destruct es as [|e es]; [assumption|].
  cbn [interleave fold_left].
  change (reduce_step (buf, None) (RStr (operator_string op)))
    with (reduce_step (buf, @None torch_op) (RStr (operator_string op))).
  rewrite reduce_step_pair. apply IH.
  rewrite buffer_field_operate by assumption. rewrite Hb. reflexivity.
Qed.

Lemma fold_reduce_step (key : string) (ops : list operator) :
  buffer_key key ->
  forall (es : list ModelIO) (ts : list tensor) (buf : buffer) (acc : tensor),
    List.length ops = List.length es ->
    Forall2 (has_tensor key) es ts ->
    buffer_field key buf = Some (VTensor acc) ->
    buffer_field key (fst (fold_left reduce_step (interleave ops es) (buf, None)))
    = match fold_terms acc (combine ops ts) with
      | Ok r => Some (VTensor r)
      | Raise _ => None
      end.
Proof.
  intros Hk. induction ops as [|op ops IH]; intros es ts buf acc Hlen Hts Hb.
  - destruct es; [|discriminate]. assumption.
  - destruct es as [|e es]; [discriminate|].
    inversion Hts as [|? t ? ts' Ht Hts']; subst.
    cbn [interleave fold_left combine fold_terms].
    rewrite reduce_step_pair.
    set (buf' := {| enc_hidden := _ |}).
    assert (Hb' : buffer_field key buf'
                  = match apply_operator op acc t with
                    | Ok z => Some (VTensor z)
                    | Raise _ => None
                    end).
    { unfold buf'. rewrite buffer_field_operate by assumption.
      rewrite Hb. unfold operate_field. rewrite Ht.
      now rewrite apply_op_operator. }
    destruct (apply_operator op acc t) as [z|err]; cbn [bind].
    + apply IH; auto.
    + now apply fold_stays_none.
Qed.

(** *** The batch reducer *)

Ltac run_reduce :=
  cbn [list_index nth_error bind is_tuple index vsub fold_terms apply_operator].

Lemma reduce_key_tensors (e0 e1 e2 : ModelIO) (more : list ModelIO)
  (key : string) (t0 t1 t2 : tensor) :
  has_tensor key e0 t0 -> has_tensor key e1 t1 -> has_tensor key e2 t2 ->
  reduce_key (e0 :: e1 :: e2 :: more) key
  = (r <- fold_terms t0 [(Minus, t1); (Plus, t2)] ;; Ok (VTensor r)).
Proof.
  unfold has_tensor, reduce_key, getattr. intros H0 H1 H2.
  run_reduce. rewrite H0. run_reduce. rewrite H1. run_reduce.
  destruct (tsub t0 t1) as [d|]; run_reduce; [|reflexivity].
  rewrite H2. run_reduce. destruct (tadd d t2); reflexivity.
Qed.

Lemma reduce_key_tuples (e0 e1 e2 : ModelIO) (more : list ModelIO)
  (key : string) (a0 b0 a1 b1 a2 b2 : tensor) :
  lookup key e0 = Some (VTuple [a0; b0]) ->
  lookup key e1 = Some (VTuple [a1; b1]) ->
  lookup key e2 = Some (VTuple [a2; b2]) ->
  reduce_key (e0 :: e1 :: e2 :: more) key
  = (a <- fold_terms a0 [(Minus, a1); (Plus, a2)] ;;
     b <- fold_terms b0 [(Minus, a1); (Plus, b2)] ;;
     Ok (VTuple [a; b])).
Proof.
  unfold reduce_key, getattr. intros H0 H1 H2.
  run_reduce. rewrite H0. run_reduce. rewrite H1. run_reduce.
  destruct (tsub a0 a1) as [d|]; run_reduce; [|reflexivity].
  rewrite H2. run_reduce.
  destruct (tadd d a2) as [a|]; run_reduce; [|reflexivity].
  destruct (tsub b0 a1) as [d'|]; run_reduce; [|reflexivity].
  destruct (tadd d' b2); reflexivity.
Qed.

Lemma mapM_lookup (f : string -> result value) (ks : list string) (m : ModelIO) :
  mapM (fun k => v <- f k ;; Ok (k, v)) ks = Ok m ->
  forall key, In key ks -> exists v, f key = Ok v /\ lookup key m = Some v.
Proof.
  revert m. induction ks as [|k ks IH]; intros m Hm key Hin; [destruct Hin|].
  cbn in Hm. destruct (f k) as [v0|] eqn:Hf; [|discriminate]. cbn in Hm.
  destruct (mapM (fun k => v <- f k ;; Ok (k, v)) ks) as [m'|] eqn:Hm';
    [|discriminate].
  cbn in Hm. injection Hm as <-. cbn [lookup].
  destruct (String.eqb k key) eqn:Hk.
  - apply String.eqb_eq in Hk. subst k. eauto.
  - destruct Hin as [->|Hin]; [now rewrite String.eqb_refl in Hk|].
    now apply IH.
Qed.

Lemma mapM_lookup_none (f : string -> result value) (ks : list string)
  (m : ModelIO) :
  mapM (fun k => v <- f k ;; Ok (k, v)) ks = Ok m ->
  forall key, ~ In key ks -> lookup key m = None.
Proof.
  revert m. induction ks as [|k ks IH]; intros m Hm key Hin.
  - injection Hm as <-. reflexivity.
  - cbn in Hm. destruct (f k) as [v0|]; [|discriminate]. cbn in Hm.
    destruct (mapM (fun k => v <- f k ;; Ok (k, v)) ks) as [m'|] eqn:Hm';
      [|discriminate].
    cbn in Hm. injection Hm as <-. cbn [lookup].
    destruct (String.eqb k key) eqn:Hk.
    + apply String.eqb_eq in Hk. subst k. exfalso. apply Hin. now left.
    + apply (IH m' eq_refl). intros H. apply Hin. now right.
Qed.

Lemma mapM_raise_in {A B : Type} (f : A -> result B) (l : list A) (x : A) :
  In x l -> is_ok (f x) = false -> is_ok (mapM f l) = false.
Proof.
  induction l as [|y l IH]; intros Hin Hx; [destruct Hin|].
  cbn. destruct (f y) as [b|] eqn:Hy; [|reflexivity]. cbn.
  destruct Hin as [->|Hin]; [rewrite Hy in Hx; discriminate|].
  specialize (IH Hin Hx). destruct (mapM f l); [discriminate|reflexivity].
Qed.

Lemma lookup_in_keys (key : string) (m : ModelIO) :
  In key (keys m) <-> lookup key m <> None.
Proof.
  induction m as [|[k v] m IH]; cbn.
  - split; [tauto|congruence].
  - destruct (String.eqb k key) eqn:Hk.
    + apply String.eqb_eq in Hk. split; [discriminate|now left].
    + apply String.eqb_neq in Hk. rewrite <- IH. split; [|tauto].
      intros [H|H]; [congruence|assumption].
Qed.

(** Terms beyond the third take no part in the reduction. *)
Lemma reduce_encodings_three (e0 e1 e2 : ModelIO) (more : list ModelIO) :
  reduce_encodings (e0 :: e1 :: e2 :: more) = reduce_encodings [e0; e1; e2].
Proof. reflexivity. Qed.

Lemma reduce_encodings_single (e0 : ModelIO) :
  keys e0 <> [] -> reduce_encodings [e0] = Raise IndexError.
Proof.
  intros Hk. unfold reduce_encodings. destruct e0 as [|[k v] m]; [now elim Hk|].
  cbn [list_index nth_error bind keys map fst mapM].
  unfold reduce_key at 1. cbn [list_index nth_error bind].
  unfold getattr. cbn [lookup]. rewrite String.eqb_refl. cbn [bind].
  destruct v as [t|l]; cbn; [reflexivity|].
  destruct l; reflexivity.
Qed.

Lemma is_ok_bind_false {A B : Type} (c : result A) (k : A -> result B) :
  (forall a, is_ok (k a) = false) -> is_ok (bind c k) = false.
Proof. intros H. destruct c; [apply H|reflexivity]. Qed.

Lemma reduce_key_pair_fails (e0 e1 : ModelIO) (key : string) :
  is_ok (reduce_key [e0; e1] key) = false.
Proof.
  unfold reduce_key.
  repeat first
    [ reflexivity
    | apply is_ok_bind_false; intros
    | match goal with
      | |- context [if ?x then _ else _] => destruct x
      end ].
Qed.

Lemma reduce_encodings_short (encodings : list ModelIO) (e0 : ModelIO) :
  nth_error encodings 0 = Some e0 -> keys e0 <> [] ->
  List.length encodings < 3 ->
  is_ok (reduce_encodings encodings) = false.
Proof.
  intros H0 Hk Hlen.
  destruct encodings as [|x [|e1 [|e2 more]]]; try discriminate;
    injection H0 as ->.
  - now rewrite reduce_encodings_single.
  - unfold reduce_encodings. cbn [list_index nth_error bind].
    destruct (keys e0) as [|k ks] eqn:Hkeys; [congruence|].
    apply (mapM_raise_in _ _ k); [now left|].
    pose proof (reduce_key_pair_fails e0 e1 k) as H.
    destruct (reduce_key [e0; e1] k); [discriminate|reflexivity].
  - simpl in Hlen. lia.
Qed.

(** A field of the first term that the second term lacks. *)
Lemma reduce_key_missing_second (e0 e1 : ModelIO) (more : list ModelIO)
  (key : string) (v0 : value) :
  lookup key e0 = Some v0 -> v0 <> VTuple [] -> lookup key e1 = None ->
  reduce_key (e0 :: e1 :: more) key = Raise AttributeError.
Proof.
  unfold reduce_key, getattr. intros H0 Hv H1.
  run_reduce. rewrite H0. run_reduce.
  destruct v0 as [t|[|a l]]; run_reduce; rewrite ?H1; try reflexivity.
  congruence.
Qed.

(** *** The policy [offset < 0] *)

Lemma mapM_map {A B C : Type} (f : B -> result C) (g : A -> B) (l : list A) :
  mapM f (map g l) = mapM (fun x => f (g x)) l.
Proof.
  induction l as [|x l IH]; [reflexivity|]. cbn. now rewrite IH.
Qed.

Lemma mapM_ext {A B : Type} (f g : A -> result B) (l : list A) :
  (forall x, f x = g x) -> mapM f l = mapM g l.
Proof.
  intros H. induction l as [|x l IH]; [reflexivity|]. cbn. now rewrite H, IH.
Qed.

Lemma compose_unfold (k : nat) (exp : list (list Z)) :
  compose_during_encoding k exp
  = (p <- partial_encoding k exp ;;
     t <- list_index exp 0 ;;
     h <- getattr p "enc_hidden" ;;
     f <- forward_with_hidden (term_input (suffix k t)) (Some h) ;;
     resume_buffer (p, f)).
Proof.
  unfold compose_during_encoding, partial_encoding.
  rewrite !mapM_map.
  destruct (mapM _ exp) as [encs|]; [|reflexivity]. cbn [bind].
  destruct (reduce_encodings encs) as [p|]; reflexivity.
Qed.

Lemma resume_unfold (k : nat) (exp : list (list Z))
  (exps : list (list (list Z))) :
  resume_encodings k (exp :: exps)
  = (p <- partial_encoding k exp ;;
     ps <- encode_reduce_expressions
             (map (map term_input) (map (map (prefix k)) exps)) ;;
     t <- list_index exp 0 ;;
     ts <- mapM (fun exp => t <- list_index exp 0 ;; Ok (suffix k t)) exps ;;
     f <- (h <- getattr p "enc_hidden" ;;
           forward_with_hidden (term_input (suffix k t)) (Some h)) ;;
     fs <- mapM (fun ie : ModelIO * ModelIO =>
                   h <- getattr (snd ie) "enc_hidden" ;;
                   forward_with_hidden (fst ie) (Some h))
                (combine (map term_input ts) ps) ;;
     r <- resume_buffer (p, f) ;;
     rs <- mapM resume_buffer (combine ps fs) ;;
     Ok (r :: rs)).
Proof.
  unfold resume_encodings, encode_reduce_expressions, partial_encoding.
  cbn [map mapM].
  destruct (mapM encoder _) as [encs|]; [|reflexivity]. cbn [bind].
  destruct (reduce_encodings encs) as [p|]; [|reflexivity]. cbn [bind].
  destruct (mapM _ (map (map term_input) (map (map (prefix k)) exps))) as [ps|];
    [|reflexivity].
  cbn [bind].
  destruct (list_index exp 0) as [t|]; [|reflexivity]. cbn [bind].
  destruct (mapM _ exps) as [ts|]; [|reflexivity]. cbn [bind map combine mapM fst snd].
  destruct (getattr p "enc_hidden") as [h|]; [|reflexivity]. cbn [bind].
  destruct (forward_with_hidden _ _) as [f|]; [|reflexivity]. cbn [bind].
  destruct (mapM _ (combine _ ps)) as [fs|]; [|reflexivity].
  reflexivity.
Qed.

Lemma resume_cons_ok (k : nat) (exp : list (list Z))
  (exps : list (list (list Z))) (r : ModelIO) :
  compose_during_encoding k exp = Ok r ->
  resume_encodings k (exp :: exps)
  = (rs <- resume_encodings k exps ;; Ok (r :: rs)).
Proof.
  rewrite compose_unfold, resume_unfold. unfold resume_encodings.
  destruct (partial_encoding k exp) as [p|]; [|discriminate]. cbn [bind].
  destruct (list_index exp 0) as [t|]; [|discriminate]. cbn [bind].
  destruct (getattr p "enc_hidden") as [h|]; [|discriminate]. cbn [bind].
  destruct (forward_with_hidden _ _) as [f|]; [|discriminate]. cbn [bind].
  intros ->.
  destruct (encode_reduce_expressions _) as [ps|]; [|reflexivity]. cbn [bind].
  destruct (mapM _ exps) as [ts|]; [|reflexivity]. cbn [bind].
  destruct (mapM _ (combine _ ps)) as [fs|]; [|reflexivity]. cbn [bind].
  reflexivity.
Qed.

Lemma resume_cons_fail (k : nat) (exp : list (list Z))
  (exps : list (list (list Z))) :
  is_ok (compose_during_encoding k exp) = false ->
  is_ok (resume_encodings k (exp :: exps)) = false.
Proof.
  rewrite compose_unfold, resume_unfold.
  destruct (partial_encoding k exp) as [p|]; [|reflexivity]. cbn [bind].
  intros H. apply is_ok_bind_false. intros ps.
  destruct (list_index exp 0) as [t|]; [|reflexivity]. cbn [bind] in *.
  apply is_ok_bind_false. intros ts.
  destruct (getattr p "enc_hidden") as [h|]; [|reflexivity]. cbn [bind] in *.
  destruct (forward_with_hidden _ _) as [f|]; [|reflexivity]. cbn [bind] in *.
  apply is_ok_bind_false. intros fs.
  destruct (resume_buffer (p, f)); [discriminate|reflexivity].
Qed.

(** The branch [offset < 0] succeeds exactly when the composition of
    section 4.3 succeeds on every example, and with the same encodings. *)
Lemma resume_encodings_spec (k : nat) (exps : list (list (list Z)))
  (rs : list ModelIO) :
  resume_encodings k exps = Ok rs
  <-> mapM (compose_during_encoding k) exps = Ok rs.
Proof.
  revert rs. induction exps as [|exp exps IH]; intros rs; [reflexivity|].
  cbn [mapM].
  destruct (compose_during_encoding k exp) as [r|err] eqn:Hc.
  - rewrite (resume_cons_ok _ _ _ _ Hc). cbn [bind].
    destruct (resume_encodings k exps) as [rs'|] eqn:Hr.
    + rewrite (proj1 (IH rs') eq_refl). reflexivity.
    + destruct (mapM (compose_during_encoding k) exps) as [rs'|] eqn:Hm.
      * pose proof (proj2 (IH rs') eq_refl). discriminate.
      * cbn. split; discriminate.
  - assert (Hf : is_ok (resume_encodings k (exp :: exps)) = false).
    { apply resume_cons_fail. now rewrite Hc. }
    cbn [bind]. destruct (resume_encodings k (exp :: exps)); [discriminate|].
    split; discriminate.
Qed.

Lemma mapM_getattr_tensors (key : string) (f : tensor * tensor -> tensor)
  (mk : tensor * tensor -> ModelIO) (hos : list (tensor * tensor)) :
  (forall ho, lookup key (mk ho) = Some (VTensor (f ho))) ->
  mapM (fun r => getattr r key) (map mk hos) = Ok (map (fun ho => VTensor (f ho)) hos).
Proof.
  intros H. induction hos as [|ho hos IH]; [reflexivity|].
  cbn [map mapM]. unfold getattr at 1. rewrite H. cbn [bind].
  rewrite IH. reflexivity.
Qed.

Lemma mapM_as_tensor (f : tensor * tensor -> tensor) (hos : list (tensor * tensor)) :
  mapM as_tensor (map (fun ho => VTensor (f ho)) hos) = Ok (map f hos).
Proof.
  induction hos as [|ho hos IH]; [reflexivity|].
  cbn [map mapM as_tensor bind]. rewrite IH. reflexivity.
Qed.

Lemma collapse_key_tensor (key : string) (f : tensor * tensor -> tensor)
  (hos : list (tensor * tensor)) (d : ModelIO) :
  hos <> [] ->
  (forall ho, lookup key (tensor_buffer ho) = Some (VTensor (f ho))) ->
  collapse_key (map tensor_buffer hos) (Ok d) key
  = (h <- thstack (map f hos) ;; Ok (set_attribute key (VTensor h) d)).
Proof.
  intros Hne H. unfold collapse_key. cbn [bind].
  rewrite (mapM_getattr_tensors key f tensor_buffer hos H).
  destruct hos as [|ho hos]; [congruence|].
  cbn [map list_index nth_error bind]. unfold getattr. rewrite H.
  cbn [bind is_tuple].
  change (VTensor (f ho) :: map (fun ho0 => VTensor (f ho0)) hos)
    with (map (fun ho0 => VTensor (f ho0)) (ho :: hos)).
  rewrite mapM_as_tensor. reflexivity.
Qed.

(** Stacking buffers whose two fields are tensors. *)
Lemma collapse_tensor_buffers (hos : list (tensor * tensor)) (d : ModelIO) :
  hos <> [] ->
  collapse (map tensor_buffer hos) d
  = (h <- thstack (map fst hos) ;;
     o <- thstack (map snd hos) ;;
     Ok (set_attribute "enc_outputs" (VTensor o)
           (set_attribute "enc_hidden" (VTensor h) d))).
Proof.
  intros Hne. unfold collapse.
  assert (Hi : exists ho, list_index (map tensor_buffer hos) 0 = Ok (tensor_buffer ho)).
  { destruct hos as [|ho hos']; [congruence|]. now exists ho. }
  destruct Hi as [ho Hi].
  rewrite Hi. cbn [bind keys tensor_buffer map fst fold_left].
  rewrite (collapse_key_tensor "enc_hidden" fst) by (assumption || reflexivity).
  destruct (thstack (map fst hos)) as [h|]; cbn [bind].
  - now rewrite (collapse_key_tensor "enc_outputs" snd) by (assumption || reflexivity).
  - reflexivity.
Qed.

(** *** Absent fields *)

Lemma fold_missing (key : string) (ops : list operator) :
  buffer_key key ->
  forall (es : list ModelIO) (buf : buffer),
    List.length ops = List.length es ->
    (exists e, In e es /\ lookup key e = None) ->
    buffer_field key (fst (fold_left reduce_step (interleave ops es) (buf, None)))
    = None.
Proof.
  intros Hk. induction ops as [|op ops IH]; intros es buf Hlen [e [Hin He]].
  - destruct es; [destruct Hin|discriminate].
  - destruct es as [|e' es]; [discriminate|].
    cbn [interleave fold_left]. rewrite reduce_step_pair.
    destruct Hin as [->|Hin].
    + apply fold_stays_none; [assumption|].
      rewrite buffer_field_operate by assumption.
      unfold operate_field. rewrite He.
      destruct (buffer_field key buf) as [[|]|]; reflexivity.
    + apply IH; [now injection Hlen|eauto].
Qed.

Lemma make_dec_inputs_omits (key : string) (sources : list (list (list Z)))
  (expressions : list item) (buf : buffer) (d : ModelIO) :
  buffer_key key -> buffer_field key buf = None ->
  make_dec_inputs sources expressions buf = Ok d -> lookup key d = None.
Proof.
  unfold make_dec_inputs. intros Hk Hb.
  destruct (list_index sources 0) as [s0|]; [|discriminate]. cbn [bind].
  destruct (first_term expressions) as [[src ann]|]; [|discriminate]. cbn [bind].
  intros H. injection H as <-.
  destruct Hk as [-> | ->]; cbn in Hb; rewrite Hb.
  - destruct (enc_outputs buf); reflexivity.
  - destruct (enc_hidden buf); reflexivity.
Qed.

Lemma mapM_length {A B : Type} (f : A -> result B) (l : list A) (ys : list B) :
  mapM f l = Ok ys -> List.length ys = List.length l.
Proof.
  revert ys. induction l as [|x l IH]; intros ys H.
  - injection H as <-. reflexivity.
  - cbn in H. destruct (f x); [|discriminate]. cbn in H.
    destruct (mapM f l) as [ys'|]; [|discriminate]. cbn in H.
    injection H as <-. cbn. now rewrite (IH ys' eq_refl).
Qed.

Lemma mapM_head {A B : Type} (f : A -> result B) (l : list A) (ys : list B)
  (y : B) :
  mapM f l = Ok ys -> nth_error ys 0 = Some y ->
  exists x, nth_error l 0 = Some x /\ f x = Ok y.
Proof.
  destruct l as [|x l]; intros H Hy.
  - injection H as <-. discriminate.
  - cbn in H. destruct (f x) as [y0|] eqn:Hf; [|discriminate]. cbn in H.
    destruct (mapM f l); [|discriminate]. cbn in H. injection H as <-.
    injection Hy as <-. exists x. split; [reflexivity|assumption].
Qed.

(** An example with fewer than three sub-expressions makes the batch
    reducer fail, as soon as the encoder reports some field. *)
Lemma encode_reduce_short (expressions : list (list ModelIO)) (exp : list ModelIO) :
  (forall m r, encoder m = Ok r -> keys r <> []) ->
  In exp expressions -> exp <> [] -> List.length exp < 3 ->
  is_ok (encode_reduce_expressions expressions) = false.
Proof.
  intros Henc Hin Hne Hlen. unfold encode_reduce_expressions.
  apply (mapM_raise_in _ _ exp Hin).
  destruct (mapM encoder exp) as [encs|] eqn:Hm; [|reflexivity]. cbn [bind].
  pose proof (mapM_length _ _ _ Hm) as Hl.
  destruct encs as [|e0 encs'] eqn:He.
  { destruct exp; [congruence|discriminate]. }
  destruct (mapM_head _ _ _ e0 Hm eq_refl) as [x [_ Hx]].
  apply (reduce_encodings_short _ e0); [reflexivity|eauto|lia].
Qed.

Lemma is_ok_bind_left {A B : Type} (c : result A) (k : A -> result B) :
  is_ok c = false -> is_ok (bind c k) = false.
Proof. destruct c; [discriminate|reflexivity]. Qed.

Lemma encode_reduce_short_terms (terms_of : list (list Z) -> list ModelIO)
  (exprs : list (list (list Z))) (exp : list (list Z)) :
  (forall m r, encoder m = Ok r -> keys r <> []) ->
  (forall e, List.length (terms_of e) = List.length e) ->
  In exp exprs -> exp <> [] -> List.length exp < 3 ->
  is_ok (encode_reduce_expressions (map terms_of exprs)) = false.
Proof.
  intros Henc Hlen Hin Hne Hshort.
  apply (encode_reduce_short _ (terms_of exp) Henc).
  - now apply in_map.
  - intros Habs. apply (f_equal (@List.length _)) in Habs.
    rewrite Hlen in Habs. destruct exp; [congruence|discriminate].
  - now rewrite Hlen.
Qed.

(** A batch with an example of fewer than three sub-expressions makes
    [forward_batch_expr] fail under every policy. *)
Lemma forward_batch_short (batch : Batch) (offset : Z) (col : list Z) :
  (forall m r, encoder m = Ok r -> keys r <> []) ->
  Forall SplitSpec.padded (source batch) ->
  In col (source batch) ->
  count_occ Z.eq_dec col Splitter.unk < 2 ->
  is_ok (forward_batch_expr batch offset) = false.
Proof.
  intros Henc Hpad Hin Hcount. unfold forward_batch_expr.
  rewrite (split_batch_spec _ Hpad). cbn [bind].
  destruct (stack_first_terms _); [|reflexivity]. cbn [bind].
  assert (Hsub : In (SplitSpec.sub_expressions col)
                   (map SplitSpec.sub_expressions (source batch)))
    by now apply in_map.
  assert (Hlen : List.length (SplitSpec.sub_expressions col) < 3).
  { unfold SplitSpec.sub_expressions.
    rewrite length_pad_segments, length_segments. lia. }
  assert (Hne : SplitSpec.sub_expressions col <> []).
  { intros Habs. apply (f_equal (@List.length _)) in Habs.
    unfold SplitSpec.sub_expressions in Habs.
    rewrite length_pad_segments, length_segments in Habs. discriminate. }
  destruct (offset <? 0)%Z.
  - apply is_ok_bind_left. unfold resume_encodings. apply is_ok_bind_left.
    rewrite map_map.
    apply (encode_reduce_short_terms
             (fun e => map term_input (map (prefix (Z.to_nat (- offset))) e))
             _ (SplitSpec.sub_expressions col) Henc); try assumption.
    intros e. now rewrite !length_map.
  - apply is_ok_bind_left.
    apply (encode_reduce_short_terms (map term_input)
             _ (SplitSpec.sub_expressions col) Henc); try assumption.
    intros e. now rewrite length_map.
Qed.

(** *** The claims *)

(** C1 (as amended).  The loop of [forward_expression] and of
    [forward_expression_eos] folds each of the two buffer fields from left
    to right with the operators it is given; the field is [None] when the
    engine rejects a step.  The batch reducer takes no operators: on a
    tensor field it computes the fold for the operators [-] then [+] over
    the first three terms, and every field of the first term is set in the
    result. *)
Theorem reduction_is_left_fold :
  (forall (key : string) (ops : list operator) (e0 : ModelIO)
          (es : list ModelIO) (t0 : tensor) (ts : list tensor),
      buffer_key key ->
      List.length ops = List.length es ->
      has_tensor key e0 t0 ->
      Forall2 (has_tensor key) es ts ->
      buffer_field key (reduce_representations (REnc e0 :: interleave ops es))
      = match fold_terms t0 (combine ops ts) with
        | Ok r => Some (VTensor r)
        | Raise _ => None
        end)
  /\ (forall (key : string) (e0 e1 e2 : ModelIO) (more : list ModelIO)
             (t0 t1 t2 : tensor),
         has_tensor key e0 t0 -> has_tensor key e1 t1 -> has_tensor key e2 t2 ->
         reduce_key (e0 :: e1 :: e2 :: more) key
         = (r <- fold_terms t0 [(Minus, t1); (Plus, t2)] ;; Ok (VTensor r)))
  /\ (forall (encodings : list ModelIO) (e0 m : ModelIO) (key : string),
         nth_error encodings 0 = Some e0 ->
         reduce_encodings encodings = Ok m ->
         In key (keys e0) ->
         exists v, reduce_key encodings key = Ok v /\ lookup key m = Some v).
Proof.
  split; [|split].
  - intros key ops e0 es t0 ts Hk Hlen H0 Hts.
    unfold reduce_representations. cbn [fold_left reduce_step].
    apply fold_reduce_step; try assumption.
    now rewrite buffer_field_load.
  - intros. now apply reduce_key_tensors.
  - intros encodings e0 m key H0 Hm Hin.
    unfold reduce_encodings, list_index in Hm. rewrite H0 in Hm. cbn [bind] in Hm.
    exact (mapM_lookup _ _ _ Hm key Hin).
Qed.

(** C3 (as amended).  With one term and no operator the loop of
    [forward_expression] hands the term's own hidden state and outputs to
    the decoder, a field the term lacks staying absent; the batch reducer
    reads three terms and raises an index error on a single one. *)
Theorem single_term_reduction :
  (forall e0 : ModelIO,
      reduce_representations [REnc e0]
      = {| enc_hidden := lookup "enc_hidden" e0;
           enc_outputs := lookup "enc_outputs" e0 |})
  /\ (forall (src : list (list Z)) (ann : tensor),
         forward_expression [Term src ann]
         = (enc <- encoder [("source", VTensor (of_tokens src))] ;;
            decode (set_if_present "enc_outputs" (lookup "enc_outputs" enc)
                      (set_if_present "enc_hidden" (lookup "enc_hidden" enc)
                         [("source", VTensor (of_tokens src));
                          ("transform", VTensor ann)]))))
  /\ (forall e0 : ModelIO, keys e0 <> [] -> reduce_encodings [e0] = Raise IndexError).
Proof.
  split; [reflexivity|]. split.
  - intros src ann. unfold forward_expression, encode_items.
    cbn [mapM encode_item bind].
    destruct (encoder _) as [enc|]; reflexivity.
  - apply reduce_encodings_single.
Qed.

(** C4 (as amended).  With [offset > 0] the call never returns a result;
    it raises the not-implemented error once the split, the stacking of the
    first terms and the reduction of the encodings have all gone through,
    and the error of the first of these steps that fails otherwise. *)
Theorem positive_offset_never_returns (batch : Batch) (offset : Z) :
  (0 < offset)%Z ->
  is_ok (forward_batch_expr batch offset) = false
  /\ (forall source' expressions stacked reduced,
         Splitter.split_and_pad_expressions (source batch)
         = Ok (source', expressions) ->
         stack_first_terms expressions = Ok stacked ->
         encode_reduce_expressions (map (map term_input) expressions)
         = Ok reduced ->
         forward_batch_expr batch offset = Raise NotImplementedError).
Proof.
  intros Hoff. unfold forward_batch_expr.
  assert (H1 : (offset <? 0)%Z = false) by (apply Z.ltb_ge; lia).
  assert (H2 : (offset =? 0)%Z = false) by (apply Z.eqb_neq; lia).
  rewrite H1, H2. split.
  - destruct (Splitter.split_and_pad_expressions _) as [[s' exprs]|];
      [|reflexivity].
    cbn [bind]. destruct (stack_first_terms exprs); [|reflexivity].
    cbn [bind]. destruct (encode_reduce_expressions _); reflexivity.
  - intros source' expressions stacked reduced Hs Hst Hr.
    rewrite Hs. cbn [bind]. rewrite Hst. cbn [bind]. now rewrite Hr.
Qed.

(** C6.  With [offset < 0] the call returns a result exactly when the
    composition of section 4.3 succeeds on every example: each
    sub-expression encoded up to [-offset] steps before its end, the partial
    encodings reduced, encoding resumed on the rest of the first
    sub-expression from the reduced hidden state, the outputs being the
    reduced partial outputs followed by the resumed ones and the hidden
    state the resumed one; the decoder is given these encodings stacked
    over the batch. *)
Theorem negative_offset_reduces_during_encoding (batch : Batch) (offset : Z)
  (out : value) :
  (offset < 0)%Z ->
  forward_batch_expr batch offset = Ok out
  <-> exists source' expressions stacked reduced dec_input,
        Splitter.split_and_pad_expressions (source batch)
        = Ok (source', expressions)
        /\ stack_first_terms expressions = Ok stacked
        /\ mapM (compose_during_encoding (Z.to_nat (- offset))) expressions
           = Ok reduced
        /\ collapse reduced (initial_dec_input stacked batch) = Ok dec_input
        /\ decode dec_input = Ok out.
Proof.
  intros Hoff. unfold forward_batch_expr.
  assert (H1 : (offset <? 0)%Z = true) by (apply Z.ltb_lt; lia).
  rewrite H1. split.
  - destruct (Splitter.split_and_pad_expressions _) as [[s' exprs]|] eqn:Hs;
      [|discriminate].
    cbn [bind].
    destruct (stack_first_terms exprs) as [stacked|] eqn:Hst; [|discriminate].
    cbn [bind].
    destruct (resume_encodings _ exprs) as [reduced|] eqn:Hr; [|discriminate].
    cbn [bind].
    destruct (collapse reduced _) as [d|] eqn:Hc; [|discriminate].
    cbn [bind]. intros Hd.
    exists s', exprs, stacked, reduced, d.
    apply resume_encodings_spec in Hr. repeat split; assumption || reflexivity.
  - intros [s' [exprs [stacked [reduced [d [Hs [Hst [Hm [Hc Hd]]]]]]]]].
    rewrite Hs. cbn [bind]. rewrite Hst. cbn [bind].
    apply resume_encodings_spec in Hm. rewrite Hm. cbn [bind].
    rewrite Hc. exact Hd.
Qed.

(** C7 (as amended).  When [forward_expression_eos] returns, the first two
    dimensions of the concatenated outputs are the shape of the first
    term's source and the first dimension of the hidden state is 1; when
    the composition completes and one of the two fails, the assertion
    error is raised.  A shape mismatch inside the reduction is no assertion
    failure: the operation raises, the exception is caught and the field
    becomes [None]; without outputs the concatenation that follows the
    encoding of the end marker raises a type error. *)
Theorem eos_shape_contract (expressions : list item) :
  (forall out,
      forward_expression_eos expressions = Ok out ->
      exists representations sources outs t src0 ann,
        encode_items drop_last_step expressions = Ok (representations, sources)
        /\ eos_compose expressions (reduce_representations representations)
           = Ok (outs, VTensor t)
        /\ first_term expressions = Ok (src0, ann)
        /\ firstn 2 (tshape outs) = tok_shape src0
        /\ hd_error (tshape t) = Some 1)
  /\ (forall representations sources outs t src0 ann,
         encode_items drop_last_step expressions = Ok (representations, sources) ->
         eos_compose expressions (reduce_representations representations)
         = Ok (outs, VTensor t) ->
         first_term expressions = Ok (src0, ann) ->
         tshape t <> [] ->
         firstn 2 (tshape outs) <> tok_shape src0 \/ hd_error (tshape t) <> Some 1 ->
         forward_expression_eos expressions = Raise AssertionError)
  /\ (forall buf src0 ann eos_token test_out eo,
         enc_outputs buf = None ->
         first_term expressions = Ok (src0, ann) ->
         last_step src0 = Ok eos_token ->
         forward_with_hidden [("source", VTensor (of_tokens eos_token))]
           (enc_hidden buf) = Ok test_out ->
         getattr test_out "enc_outputs" = Ok eo ->
         eos_compose expressions buf = Raise TypeError)
  /\ (forall op x y r key e,
         lookup key r = Some (VTensor y) ->
         apply_op op x y = Raise e ->
         operate_field op (Some (VTensor x)) r key = None).
Proof.
  split; [|split; [|split]].
  - intros out. unfold forward_expression_eos.
    destruct (encode_items drop_last_step expressions) as [[reps sources]|];
      [|discriminate].
    cbn [bind].
    destruct (eos_compose expressions (reduce_representations reps))
      as [[outs h]|] eqn:Hc; [|discriminate].
    cbn [bind]. destruct (eos_asserts expressions outs h) eqn:Ha; [|discriminate].
    intros _. unfold eos_asserts in Ha.
    destruct (first_term expressions) as [[src0 ann]|] eqn:Hf; [|discriminate].
    cbn [bind] in Ha.
    destruct (list_eq_dec Nat.eq_dec _ _) as [Hsh|]; [|discriminate].
    destruct h as [t|]; [|discriminate].
    destruct (tshape t) as [|n sh] eqn:Ht; [discriminate|].
    destruct (Nat.eqb n 1) eqn:Hn; [|discriminate].
    apply Nat.eqb_eq in Hn. subst n.
    exists reps, sources, outs, t, src0, ann.
    rewrite Ht. repeat split; assumption || reflexivity.
  - intros reps sources outs t src0 ann He Hc Hf Hne Hviol.
    unfold forward_expression_eos. rewrite He. cbn [bind]. rewrite Hc. cbn [bind].
    unfold eos_asserts. rewrite Hf. cbn [bind].
    destruct (list_eq_dec Nat.eq_dec _ _) as [Hsh|]; [|reflexivity].
    destruct (tshape t) as [|n sh] eqn:Ht; [congruence|].
    destruct (Nat.eqb n 1) eqn:Hn; [|reflexivity].
    apply Nat.eqb_eq in Hn. subst n.
    destruct Hviol as [H|H]; exfalso; apply H; [assumption|reflexivity].
  - intros buf src0 ann eos_token test_out eo Hb Hf Hl Hw Hg.
    unfold eos_compose. rewrite Hf. cbn [bind]. rewrite Hl. cbn [bind].
    rewrite Hw. cbn [bind]. rewrite Hg. cbn [bind]. rewrite Hb. reflexivity.
  - intros op x y r key e Hl Ha. unfold operate_field. now rewrite Hl, Ha.
Qed.

(** C8 (as amended).  In the loop of [forward_expression] a buffer field
    that some term lacks ends as [None], and [dec_inputs] is built without
    it; no exception leaves the loop.  The batch reducer leaves out the
    fields that the first term lacks, and raises an attribute error on a
    field of the first term that the second term lacks. *)
Theorem absent_field_reduction :
  (forall (key : string) (ops : list operator) (e0 : ModelIO) (es : list ModelIO),
      buffer_key key ->
      List.length ops = List.length es ->
      (exists e, In e (e0 :: es) /\ lookup key e = None) ->
      buffer_field key (reduce_representations (REnc e0 :: interleave ops es)) = None)
  /\ (forall (key : string) sources expressions (buf : buffer) (d : ModelIO),
         buffer_key key ->
         buffer_field key buf = None ->
         make_dec_inputs sources expressions buf = Ok d ->
         lookup key d = None)
  /\ (forall (encodings : list ModelIO) (e0 m : ModelIO) (key : string),
         nth_error encodings 0 = Some e0 ->
         reduce_encodings encodings = Ok m ->
         lookup key e0 = None ->
         lookup key m = None)
  /\ (forall (e0 e1 : ModelIO) (more : list ModelIO) (key : string) (v0 : value),
         lookup key e0 = Some v0 -> v0 <> VTuple [] -> lookup key e1 = None ->
         reduce_key (e0 :: e1 :: more) key = Raise AttributeError
         /\ is_ok (reduce_encodings (e0 :: e1 :: more)) = false).
Proof.
  split; [|split; [|split]].
  - intros key ops e0 es Hk Hlen [e [[<-|Hin] He]].
    + unfold reduce_representations. cbn [fold_left reduce_step].
      apply fold_stays_none; [assumption|].
      now rewrite buffer_field_load.
    + unfold reduce_representations. cbn [fold_left reduce_step].
      apply fold_missing; eauto.
  - intros. eapply make_dec_inputs_omits; eauto.
  - intros encodings e0 m key H0 Hm Hl.
    unfold reduce_encodings, list_index in Hm. rewrite H0 in Hm. cbn [bind] in Hm.
    apply (mapM_lookup_none _ _ _ Hm). rewrite lookup_in_keys. tauto.
  - intros e0 e1 more key v0 H0 Hv H1.
    pose proof (reduce_key_missing_second e0 e1 more key v0 H0 Hv H1) as Hr.
    split; [assumption|].
    unfold reduce_encodings. cbn [list_index nth_error bind].
    apply (mapM_raise_in _ _ key).
    + apply lookup_in_keys. congruence.
    + rewrite Hr. reflexivity.
Qed.

(** C9 (as amended).  [forward_batch_expr] compares no operator counts.
    Its reducer reads the first three encodings of an example and nothing
    else: terms beyond the third do not change its result, and an example
    with fewer than three terms makes it fail, as soon as the encoder
    reports some field; so a batch with a column of fewer than two operator
    markers makes the call fail under every policy. *)
Theorem batch_reducer_reads_three_terms :
  (forall (e0 e1 e2 : ModelIO) (more : list ModelIO),
      reduce_encodings (e0 :: e1 :: e2 :: more) = reduce_encodings [e0; e1; e2])
  /\ (forall (expressions : list (list ModelIO)) (exp : list ModelIO),
         (forall m r, encoder m = Ok r -> keys r <> []) ->
         In exp expressions -> exp <> [] -> List.length exp < 3 ->
         is_ok (encode_reduce_expressions expressions) = false)
  /\ (forall (batch : Batch) (offset : Z) (col : list Z),
         (forall m r, encoder m = Ok r -> keys r <> []) ->
         Forall SplitSpec.padded (source batch) ->
         In col (source batch) ->
         count_occ Z.eq_dec col Splitter.unk < 2 ->
         is_ok (forward_batch_expr batch offset) = false).
Proof.
  split; [|split].
  - intros. apply reduce_encodings_three.
  - apply encode_reduce_short.
  - apply forward_batch_short.
Qed.

End ReducerFacts.

(** * The claims on concrete encodings and batches *)

Section ConcreteRuns.
Import IntEngine Examples Splitter SplitSpec.

Lemma run_encoder_fields (m r : ModelIO) (h0 : option (list Z)) :
  run_encoder m h0 = Ok r -> keys r <> [].
Proof.
  unfold run_encoder.
  destruct (getattr m "source") as [[t|]|]; try discriminate. cbn [bind].
  destruct (shape t) as [|T [|B [|? ?]]]; try discriminate.
  destruct (Nat.eqb _ B); [|discriminate].
  destruct (run_steps _ _). intros H. injection H as <-. discriminate.
Qed.

Lemma padded_analogy_column : padded analogy_column.
Proof. split; discriminate. Qed.

(** The fold of C1 on three encodings joined by [-] and [+]. *)
Lemma reduction_is_left_fold_witness :
  buffer_field "enc_hidden"
    (reduce_representations
       (REnc (bag 6 1) :: interleave [Minus; Plus] [bag 7 1; bag 8 1]))
  = Some (VTensor (cell 7)).
Proof.
  apply (proj1 reduction_is_left_fold "enc_hidden" [Minus; Plus] (bag 6 1)
           [bag 7 1; bag 8 1] (cell 6) [cell 7; cell 8]).
  - left. reflexivity.
  - reflexivity.
  - reflexivity.
  - repeat constructor.
Defined.

(** C1 fails on the batch reducer: with the operators [+] and [+] the fold
    of three encodings is their sum, and the reducer returns the first
    minus the second plus the third. *)
Lemma batch_reducer_ignores_operators :
  fold_terms (cell 6) [(Plus, cell 7); (Plus, cell 8)] = Ok (cell 21)
  /\ reduce_encodings [hidden_only 6; hidden_only 7; hidden_only 8]
     = Ok (hidden_only 7)
  /\ lookup "enc_hidden" (hidden_only 7) <> Some (VTensor (cell 21)).
Proof. split; [|split]; [reflexivity|reflexivity|discriminate]. Qed.

(** C2 fails on the code: with hidden and cell states (10, 100), (1, 7) and
    (5, 50) the reduced cell state is 100 - 1 + 50 = 149, the hidden state
    of the second term having taken the place of its cell state; position
    by position it would be 100 - 7 + 50 = 143. *)
Theorem tuple_cell_state_mixes_positions :
  reduce_encodings [lstm_bag 10 100; lstm_bag 1 7; lstm_bag 5 50]
  = Ok (lstm_bag 14 149)
  /\ fold_terms (cell 100) [(Minus, cell 7); (Plus, cell 50)] = Ok (cell 143).
Proof. split; reflexivity. Qed.

Lemma single_term_reduction_witness :
  reduce_encodings [bag 3 4] = Raise IndexError.
Proof.
  apply (proj2 (proj2 single_term_reduction) (bag 3 4)). discriminate.
Defined.

(** C3 fails on the batch path: the sequence without operator of section 8
    of the specification is encoded, and its reduction raises. *)
Lemma single_term_batch_raises :
  (exists enc, encoder (term_input plain_column) = Ok enc
               /\ reduce_encodings [enc] = Raise IndexError)
  /\ forward_batch_expr plain_batch 0 = Raise IndexError.
Proof. split; [eexists; split|]; reflexivity. Qed.

Lemma positive_offset_never_returns_witness :
  forward_batch_expr analogy_batch 1 = Raise NotImplementedError.
Proof.
  destruct (positive_offset_never_returns analogy_batch 1 ltac:(lia)) as [_ H].
  eapply H; reflexivity.
Defined.

(** C4 fails on a batch without operator: the reducer raises its index
    error before the offset is looked at. *)
Lemma positive_offset_index_error :
  forward_batch_expr plain_batch 1 = Raise IndexError.
Proof. reflexivity. Qed.

Lemma split_yields_marked_sub_expressions_witness :
  exists source',
    split_and_pad_expressions [analogy_column]
    = Ok (source', [[[1; 3; 2]; [1; 4; 2]; [1; 5; 2]]%Z]).
Proof.
  destruct (split_yields_marked_sub_expressions [analogy_column]
              (Forall_cons _ padded_analogy_column (Forall_nil _)))
    as [source' [H _]].
  exists source'. exact H.
Defined.

(** C5 fails on a column without operator: its first sub-expression is the
    column itself, with no end marker appended. *)
Lemma split_plain_column_appends_nothing :
  exists source' first rest,
    split_and_pad_expressions [plain_column] = Ok (source', [first :: rest])
    /\ first = plain_column
    /\ first <> hd [] (segments plain_column) ++ [last plain_column 0%Z].
Proof.
  exists [plain_column], plain_column, []. repeat split. discriminate.
Qed.

Lemma negative_offset_reduces_during_encoding_witness :
  exists source' expressions stacked reduced dec_input,
    split_and_pad_expressions (source analogy_batch) = Ok (source', expressions)
    /\ stack_first_terms expressions = Ok stacked
    /\ mapM (compose_during_encoding 1) expressions = Ok reduced
    /\ collapse reduced (initial_dec_input stacked analogy_batch) = Ok dec_input
    /\ decode dec_input = Ok (@VTensor engine (mk_tensor [1; 2; 1] [7; 11]%Z)).
Proof.
  apply (proj1 (negative_offset_reduces_during_encoding analogy_batch (-1)
                  (@VTensor engine (mk_tensor [1; 2; 1] [7; 11]%Z)) ltac:(lia))).
  reflexivity.
Defined.

Lemma eos_shape_contract_witness :
  exists representations sources outs t src0 ann,
    encode_items drop_last_step analogy_items = Ok (representations, sources)
    /\ eos_compose analogy_items (reduce_representations representations)
       = Ok (outs, VTensor t)
    /\ first_term analogy_items = Ok (src0, ann)
    /\ firstn 2 (tshape outs) = tok_shape src0
    /\ hd_error (tshape t) = Some 1.
Proof.
  apply (proj1 (eos_shape_contract analogy_items) (@VTensor engine (cell 7))).
  reflexivity.
Defined.

(** C7 fails when the terms differ in length: their outputs cannot be
    subtracted, the buffer field becomes [None], and the call ends in a
    type error, not in an assertion error. *)
Lemma eos_shape_mismatch_is_type_error :
  tsub (mk_tensor [2; 1; 1] [1; 4]%Z) (mk_tensor [3; 1; 1] [1; 5; 11]%Z)
  = Raise RuntimeError
  /\ (exists representations sources,
         encode_items drop_last_step uneven_items = Ok (representations, sources)
         /\ enc_outputs (reduce_representations representations) = None)
  /\ forward_expression_eos uneven_items = Raise TypeError.
Proof. split; [|split; [eexists _, _; split|]]; reflexivity. Qed.

Lemma absent_field_reduction_witness :
  buffer_field "enc_outputs"
    (reduce_representations
       (REnc (bag 6 1) :: interleave [Minus; Plus] [hidden_only 7; bag 8 1]))
  = None.
Proof.
  apply (proj1 absent_field_reduction "enc_outputs" [Minus; Plus] (bag 6 1)
           [hidden_only 7; bag 8 1]).
  - right. reflexivity.
  - reflexivity.
  - exists (hidden_only 7). split; [right; left; reflexivity|reflexivity].
Defined.

(** C8 fails on the batch reducer: the second term has no outputs, and the
    reduction raises instead of leaving the outputs out. *)
Lemma batch_reducer_raises_on_absent_field :
  reduce_encodings [bag 6 1; hidden_only 7; bag 8 1] = Raise AttributeError.
Proof. reflexivity. Qed.

Lemma batch_reducer_reads_three_terms_witness :
  is_ok (encode_reduce_expressions [[term_input plain_column]]) = false.
Proof.
  apply (proj1 (proj2 batch_reducer_reads_three_terms)
           [[term_input plain_column]] [term_input plain_column]).
  - intros m r. apply run_encoder_fields.
  - left. reflexivity.
  - discriminate.
  - simpl. lia.
Defined.

(** C9 fails on a batch whose examples hold four and three operators: the
    call returns, the sub-expressions beyond the third having been left
    out of the reduction. *)
Lemma uneven_batch_is_accepted :
  count_occ Z.eq_dec (nth 0 (source uneven_batch) []) unk = 4
  /\ count_occ Z.eq_dec (nth 1 (source uneven_batch) []) unk = 3
  /\ forward_batch_expr uneven_batch 0
     = Ok (@VTensor engine (mk_tensor [1; 2; 1] [7; 7]%Z)).
Proof. repeat split; vm_compute; reflexivity. Qed.

Lemma split_rewrites_last_operator_only_witness :
  exists source' expressions,
    split_and_pad_expressions [analogy_column] = Ok (source', expressions)
    /\ nth_error source' 0 = Some [1; 3; 0; 4; 1; 5; 2]%Z.
Proof.
  destruct (split_rewrites_last_operator_only [analogy_column]
              (Forall_cons _ padded_analogy_column (Forall_nil _)))
    as [source' [expressions [H _]]].
  exists source', expressions. split; [exact H|].
  rewrite (split_batch_spec [analogy_column]
             (Forall_cons _ padded_analogy_column (Forall_nil _))) in H.
  injection H as <- _. reflexivity.
Defined.

(** C10 fails on a column with two operators: the position of the first
    one holds the operator marker after the split as before. *)
Lemma split_keeps_first_operator :
  exists source' expressions col',
    split_and_pad_expressions [analogy_column] = Ok (source', expressions)
    /\ nth_error source' 0 = Some col'
    /\ nth_error analogy_column 2 = Some unk
    /\ nth_error col' 2 = Some unk
    /\ nth_error col' 2 <> Some (hd 0%Z analogy_column).
Proof.
  eexists _, _, _. repeat split; try reflexivity. discriminate.
Qed.

End ConcreteRuns.

(** * Further properties of the splitter, of the reduction and of the forward pass *)

Section SplitterMore.
Import Splitter SplitSpec Rejoin.

Lemma paddedb_spec (col : list Z) : paddedb col = true <-> padded col.
Proof.
  unfold paddedb, padded. destruct col as [|x l]; simpl.
  - split; [discriminate|]. intros [H _]. congruence.
  - rewrite negb_true_iff, Z.eqb_neq. split; [|tauto].
    intros H. split; [discriminate|assumption].
Qed.

Lemma split_column_unpadded (col : list Z) :
  paddedb col = false -> split_column col = Raise IndexError.
Proof.
  destruct col as [|x l]; [reflexivity|].
  simpl. rewrite negb_false_iff. intros Hx.
  unfold split_column, operator_indices, tensor_split.
  cbn [nonzero_from]. rewrite Hx. reflexivity.
Qed.

Lemma split_column_padded (col : list Z) :
  padded col ->
  ('(col', subs) <- split_column col ;; Ok (col', map (read col') subs))
  = Ok (after_split col, sub_expressions col).
Proof.
  intros H. destruct (split_column_spec col H) as [col' [subs [Hs [Hc Hr]]]].
  rewrite Hs. cbn [bind]. rewrite Hr, Hc. reflexivity.
Qed.

Lemma split_batch_total (source : list (list Z)) :
  split_and_pad_expressions source
  = if forallb paddedb source
    then Ok (map after_split source, map sub_expressions source)
    else Raise IndexError.
Proof.
  unfold split_and_pad_expressions.
  assert (Hm : mapM (fun col =>
                       '(col', subs) <- split_column col ;;
                       Ok (col', map (read col') subs)) source
               = if forallb paddedb source
                 then Ok (map (fun col => (after_split col, sub_expressions col)) source)
                 else Raise IndexError).
  { induction source as [|col source IH]; [reflexivity|].
    cbn [mapM forallb]. destruct (paddedb col) eqn:Hp.
    - rewrite (split_column_padded col (proj1 (paddedb_spec col) Hp)).
      cbn [bind andb]. rewrite IH. destruct (forallb paddedb source); reflexivity.
    - rewrite (split_column_unpadded col Hp). reflexivity. }
  rewrite Hm. destruct (forallb paddedb source); [|reflexivity].
  cbn [bind]. now rewrite !map_map.
Qed.

Lemma pad_rest_cons (sos eos : Z) (s s2 : list Z) (ss : list (list Z)) :
  pad_rest sos eos (s :: s2 :: ss)
  = (sos :: tl s ++ [eos]) :: pad_rest sos eos (s2 :: ss).
Proof. reflexivity. Qed.

Lemma pad_rest_nonempty (sos eos : Z) (s : list Z) (ss : list (list Z)) :
  exists p ps, pad_rest sos eos (s :: ss) = p :: ps.
Proof. destruct ss; simpl; eauto. Qed.

Lemma rejoin_rest_cons (s p : list Z) (ps : list (list Z)) :
  rejoin_rest (s :: p :: ps)
  = unk :: tl (removelast s) ++ rejoin_rest (p :: ps).
Proof. reflexivity. Qed.

Lemma rejoin_cons (s p : list Z) (ps : list (list Z)) :
  rejoin (s :: p :: ps) = removelast s ++ rejoin_rest (p :: ps).
Proof. reflexivity. Qed.

Lemma rejoin_rest_pad (sos eos : Z) (ss : list (list Z)) :
  Forall (fun seg => hd_error seg = Some unk) ss ->
  rejoin_rest (pad_rest sos eos ss) = List.concat ss.
Proof.
  induction ss as [|s ss IH]; intros H; [reflexivity|].
  pose proof (Forall_inv H) as Hs. pose proof (Forall_inv_tail H) as Hss.
  destruct s as [|x s']; [discriminate|]. injection Hs as ->.
  destruct ss as [|s2 ss].
  - simpl. now rewrite app_nil_r.
  - rewrite pad_rest_cons.
    destruct (pad_rest_nonempty sos eos s2 ss) as [p [ps Hp]].
    specialize (IH Hss). rewrite Hp in *.
    rewrite rejoin_rest_cons, IH. cbn [tl].
    change (sos :: s' ++ [eos]) with ((sos :: s') ++ [eos]).
    rewrite removelast_last. reflexivity.
Qed.

Lemma rejoin_sub_expressions (col : list Z) :
  rejoin (sub_expressions col) = col.
Proof.
  unfold sub_expressions.
  pose proof (concat_segments col) as Hc.
  pose proof (segments_tail col) as Ht.
  destruct (segments col) as [|s0 ss]; [assumption|].
  destruct ss as [|s1 ss].
  - simpl in *. now rewrite app_nil_r in Hc.
  - change (pad_segments (hd 0%Z col) (last col 0%Z) (s0 :: s1 :: ss))
      with ((s0 ++ [last col 0%Z])
              :: pad_rest (hd 0%Z col) (last col 0%Z) (s1 :: ss)).
    pose proof (rejoin_rest_pad (hd 0%Z col) (last col 0%Z) (s1 :: ss) Ht) as Hr.
    destruct (pad_rest_nonempty (hd 0%Z col) (last col 0%Z) s1 ss) as [p [ps Hp]].
    rewrite Hp in *. rewrite rejoin_cons, Hr, removelast_last. exact Hc.
Qed.

(** X1.  The splitter returns exactly on the batches all of whose columns
    are non-empty and do not start with an operator marker; on every other
    batch it raises an index error. *)
Theorem split_succeeds_iff_padded (source : list (list Z)) :
  split_and_pad_expressions source
  = if forallb paddedb source
    then Ok (map after_split source, map sub_expressions source)
    else Raise IndexError.
Proof. apply split_batch_total. Qed.

(** X2.  Splitting loses nothing: taking the appended end markers off the
    sub-expressions of an example and putting the operator marker back in
    front of all but the first gives the column of the batch again. *)
Theorem split_rejoin (source source' : list (list Z))
  (expressions : list (list (list Z))) :
  split_and_pad_expressions source = Ok (source', expressions) ->
  map rejoin expressions = source.
Proof.
  rewrite split_batch_total.
  destruct (forallb paddedb source); [|discriminate].
  intros H. injection H as _ <-. rewrite map_map.
  rewrite <- (map_id source) at 2. apply map_ext. apply rejoin_sub_expressions.
Qed.

Lemma padded_hd (col : list Z) : padded col -> hd 0%Z col <> unk.
Proof. intros [Hne Hhd]. destruct col; [congruence|exact Hhd]. Qed.

Lemma sub_expressions_clean (col : list Z) :
  padded col -> last col 0%Z <> unk ->
  Forall (fun sub => sub <> [] /\ ~ In unk sub) (sub_expressions col).
Proof.
  intros Hpad Hlast. apply Forall_forall. intros sub Hin.
  apply In_nth_error in Hin as [j Hj].
  assert (Hlt : j < List.length (segments col)).
  { unfold sub_expressions in Hj.
    rewrite <- (length_pad_segments (hd 0%Z col) (last col 0%Z)).
    apply nth_error_Some. congruence. }
  destruct (nth_error (segments col) j) as [seg|] eqn:Hseg;
    [|apply nth_error_None in Hseg; lia].
  unfold sub_expressions in Hj.
  rewrite (nth_error_pad_segments _ _ _ _ _ Hseg) in Hj. injection Hj as <-.
  pose proof (segment_shape col j seg Hseg) as Hshape.
  pose proof (segments_head_padded col Hpad) as Hs0.
  pose proof (padded_hd col Hpad) as Hsos.
  assert (Htail : forall b : bool,
             ~ In unk (if b then [last col 0%Z] else [])).
  { intros b H. destruct b; simpl in H; [|exact H].
    destruct H as [H|H]; [congruence|exact H]. }
  destruct j as [|j]; cbn [Nat.eqb] in *.
  - split.
    + destruct (segments col) as [|s0 ss]; [discriminate|].
      injection Hseg as ->. simpl in Hs0.
      destruct seg; [congruence|discriminate].
    + intros Hin. apply in_app_or in Hin as [Hin|Hin]; [tauto|].
      now apply Htail in Hin.
  - destruct Hshape as [rest [-> Hrest]]. split; [discriminate|].
    intros Hin. apply in_app_or in Hin as [Hin|Hin].
    + destruct Hin as [Hin|Hin]; [congruence|]. now apply Hrest.
    + now apply Htail in Hin.
Qed.

(** X3.  When no column ends with an operator marker, no sub-expression
    that the splitter returns is empty and none holds an operator marker:
    the encoder is never given the unknown-token id. *)
Theorem split_leaves_no_operator_marker (source source' : list (list Z))
  (expressions : list (list (list Z))) :
  split_and_pad_expressions source = Ok (source', expressions) ->
  Forall (fun col => last col 0%Z <> unk) source ->
  Forall (Forall (fun sub => sub <> [] /\ ~ In unk sub)) expressions.
Proof.
  rewrite split_batch_total.
  destruct (forallb paddedb source) eqn:Hp; [|discriminate].
  intros H Hlast. injection H as _ <-.
  rewrite forallb_forall in Hp. rewrite Forall_forall in *.
  intros subs Hin. apply in_map_iff in Hin as [col [<- Hcol]].
  apply sub_expressions_clean; [|now apply Hlast].
  apply paddedb_spec. now apply Hp.
Qed.

Lemma count_occ_set_nth (l : list Z) (i : nat) (v : Z) :
  nth_error l i = Some unk -> v <> unk ->
  count_occ Z.eq_dec (set_nth i v l) unk = pred (count_occ Z.eq_dec l unk).
Proof.
  revert i. induction l as [|x l IH]; intros i Hi Hv; [destruct i; discriminate|].
  destruct i as [|i].
  - injection Hi as ->. simpl.
    destruct (Z.eq_dec v unk); [congruence|].
    destruct (Z.eq_dec unk unk); [reflexivity|congruence].
  - simpl in Hi. cbn [set_nth count_occ]. rewrite (IH i Hi Hv).
    destruct (Z.eq_dec x unk); [|reflexivity].
    assert (Hpos : 0 < count_occ Z.eq_dec l unk).
    { apply count_occ_In. eapply nth_error_In; eauto. }
    lia.
Qed.

Lemma last_operator_holds (col : list Z) (i : nat) :
  last_operator col = Some i -> nth_error col i = Some unk.
Proof.
  intros H. apply last_operator_spec in H. unfold is_last_operator in H.
  destruct (nth_error col i) as [x|]; [|discriminate].
  apply andb_prop in H as [H _]. apply Z.eqb_eq in H. now subst.
Qed.

Lemma last_operator_none (col : list Z) :
  last_operator col = None -> count_occ Z.eq_dec col unk = 0.
Proof.
  intros H. apply count_occ_not_In. intros Hin.
  apply In_nth_error in Hin as [i Hi].
  unfold last_operator, operator_indices in H.
  assert (Hidx : In i (nonzero_from 0 col)).
  { apply in_nonzero_from. rewrite Nat.sub_0_r. split; [lia|assumption]. }
  destruct (nonzero_from 0 col); [destruct Hidx|discriminate].
Qed.

Lemma after_split_padded (col : list Z) :
  padded col ->
  padded (after_split col)
  /\ count_occ Z.eq_dec (after_split col) unk
     = pred (count_occ Z.eq_dec col unk).
Proof.
  intros Hpad. pose proof (padded_hd col Hpad) as Hsos.
  unfold after_split. destruct (last_operator col) as [i|] eqn:Hlo.
  - pose proof (last_operator_holds col i Hlo) as Hi. split.
    + destruct Hpad as [Hne Hhd]. destruct col as [|x l]; [congruence|].
      destruct i as [|i]; [simpl in *; congruence|].
      split; [discriminate|exact Hhd].
    + now apply count_occ_set_nth.
  - split; [assumption|]. now rewrite (last_operator_none col Hlo).
Qed.

(** X4.  A second split of the same tensor does not see what the first one
    saw: the tensor that the first call leaves behind is split without
    failure, and every example then has one sub-expression fewer, down to
    one. *)
Theorem second_split_sees_fewer_terms (source source' : list (list Z))
  (expressions : list (list (list Z))) :
  split_and_pad_expressions source = Ok (source', expressions) ->
  exists source'' expressions',
    split_and_pad_expressions source' = Ok (source'', expressions')
    /\ Forall2 (fun e e' => List.length e' = Nat.max 1 (List.length e - 1))
         expressions expressions'.
Proof.
  rewrite split_batch_total.
  destruct (forallb paddedb source) eqn:Hp; [|discriminate].
  intros H. injection H as <- <-.
  rewrite forallb_forall in Hp.
  assert (Hp' : forallb paddedb (map after_split source) = true).
  { apply forallb_forall. intros col' Hin.
    apply in_map_iff in Hin as [col [<- Hcol]].
    apply paddedb_spec. apply after_split_padded. apply paddedb_spec. auto. }
  exists (map after_split (map after_split source)),
         (map sub_expressions (map after_split source)).
  rewrite split_batch_total, Hp'. split; [reflexivity|].
  rewrite map_map. clear Hp'.
  induction source as [|col source IH]; [constructor|].
  cbn [map]. constructor.
  - assert (Hc : padded col) by (apply paddedb_spec, Hp; now left).
    destruct (after_split_padded col Hc) as [_ Hcount].
    unfold sub_expressions.
    rewrite !length_pad_segments, !length_segments, Hcount. lia.
  - apply IH. intros x Hx. apply Hp. now right.
Qed.

End SplitterMore.

Section CompositionMore.
Context `{E : TensorEngine} `{N : !Networks}.
Import Splitter SplitSpec Rejoin.

Lemma lookup_set_same (key : string) (v : value) (m : ModelIO) :
  lookup key (set_attribute key v m) = Some v.
Proof.
  induction m as [|[k w] m IH]; cbn.
  - now rewrite String.eqb_refl.
  - destruct (String.eqb k key) eqn:Hk; cbn; rewrite Hk; [reflexivity|exact IH].
Qed.

Lemma lookup_set_other (key key' : string) (v : value) (m : ModelIO) :
  key <> key' -> lookup key' (set_attribute key v m) = lookup key' m.
Proof.
  intros Hne. induction m as [|[k w] m IH]; cbn.
  - apply String.eqb_neq in Hne. now rewrite Hne.
  - destruct (String.eqb k key) eqn:Hk; cbn.
    + apply String.eqb_eq in Hk. subst k.
      apply String.eqb_neq in Hne. now rewrite Hne.
    + destruct (String.eqb k key'); [reflexivity|exact IH].
Qed.

(** X5.  The mutation of the caller's tensor makes [forward_batch_expr]
    unrepeatable: once a batch of expressions of at most three terms has been
    split, a call on the same tensor fails under every policy, as soon as
    the encoder reports some field. *)
Theorem second_call_fails (batch : Batch) (offset : Z)
  (source' : list (list Z)) (expressions : list (list (list Z))) :
  (forall m r, encoder m = Ok r -> keys r <> []) ->
  source batch <> [] ->
  Forall (fun col => count_occ Z.eq_dec col unk <= 2) (source batch) ->
  split_and_pad_expressions (source batch) = Ok (source', expressions) ->
  is_ok (forward_batch_expr
           {| source := source'; annotation := annotation batch |} offset)
  = false.
Proof.
  intros Henc Hne Hcount. rewrite split_batch_total.
  destruct (forallb paddedb (source batch)) eqn:Hp; [|discriminate].
  intros H. injection H as <- _.
  rewrite forallb_forall in Hp. rewrite Forall_forall in Hcount.
  destruct (source batch) as [|col cols] eqn:Hsrc; [congruence|].
  assert (Hc : padded col) by (apply paddedb_spec, Hp; now left).
  destruct (after_split_padded col Hc) as [_ Hcol].
  apply (forward_batch_short _ offset (after_split col) Henc).
  - cbn [source]. apply Forall_forall. intros c' Hin.
    apply in_map_iff in Hin as [c [<- Hcin]].
    apply after_split_padded. apply paddedb_spec. auto.
  - cbn [source map]. now left.
  - rewrite Hcol. specialize (Hcount col (or_introl eq_refl)). lia.
Qed.

Lemma sub_expressions_nonempty (col : list Z) : sub_expressions col <> [].
Proof.
  intros H. apply (f_equal (@List.length _)) in H.
  unfold sub_expressions in H.
  rewrite length_pad_segments, length_segments in H. discriminate.
Qed.

Lemma first_terms (source : list (list Z)) :
  mapM (fun e : list (list Z) => list_index e 0) (map sub_expressions source)
  = Ok (map (fun col => hd [] (sub_expressions col)) source).
Proof.
  induction source as [|col source IH]; [reflexivity|].
  cbn [map mapM]. rewrite IH.
  pose proof (sub_expressions_nonempty col) as Hne.
  destruct (sub_expressions col); [congruence|reflexivity].
Qed.

Lemma stack_uneven (ts : list (list Z)) :
  (ts = [] \/ exists a b, In a ts /\ In b ts /\ List.length a <> List.length b) ->
  stack ts = Raise RuntimeError.
Proof.
  intros H. destruct ts as [|t ts]; [reflexivity|].
  destruct H as [H|[a [b [Ha [Hb Hab]]]]]; [discriminate|].
  unfold stack.
  destruct (forallb _ ts) eqn:Hall; [|reflexivity].
  rewrite forallb_forall in Hall. exfalso. apply Hab.
  assert (Hl : forall x, In x (t :: ts) -> List.length x = List.length t).
  { intros x [<-|Hx]; [reflexivity|]. apply Nat.eqb_eq. now apply Hall. }
  now rewrite (Hl a Ha), (Hl b Hb).
Qed.

(** X6.  [forward_batch_expr] stacks the first sub-expressions of the
    examples into the source of the decoder: on an empty batch, and on a
    batch in which two first sub-expressions differ in length, it raises a
    runtime error under every policy, before any encoding. *)
Theorem uneven_first_terms_raise (batch : Batch) (offset : Z) :
  Forall padded (source batch) ->
  (source batch = []
   \/ exists c1 c2,
        In c1 (source batch) /\ In c2 (source batch)
        /\ List.length (hd [] (sub_expressions c1))
           <> List.length (hd [] (sub_expressions c2))) ->
  forward_batch_expr batch offset = Raise RuntimeError.
Proof.
  intros Hpad H. unfold forward_batch_expr.
  rewrite (split_batch_spec _ Hpad). cbn [bind].
  unfold stack_first_terms. rewrite first_terms. cbn [bind].
  rewrite stack_uneven; [reflexivity|].
  destruct H as [->|[c1 [c2 [H1 [H2 Hl]]]]]; [now left|]. right.
  exists (hd [] (sub_expressions c1)), (hd [] (sub_expressions c2)).
  repeat split; try assumption;
    apply (in_map (fun col => hd [] (sub_expressions col))); assumption.
Qed.

Lemma mapM_keys (f : string -> result value) (ks : list string) (m : ModelIO) :
  mapM (fun k => v <- f k ;; Ok (k, v)) ks = Ok m -> keys m = ks.
Proof.
  revert m. induction ks as [|k ks IH]; intros m Hm.
  - injection Hm as <-. reflexivity.
  - cbn in Hm. destruct (f k); [|discriminate]. cbn in Hm.
    destruct (mapM _ ks) as [m'|]; [|discriminate]. cbn in Hm.
    injection Hm as <-. unfold keys in *. cbn [map fst].
    now rewrite (IH m' eq_refl).
Qed.

Ltac unbind H :=
  repeat match type of H with
         | bind ?c _ = Ok _ =>
             let x := fresh "x" in
             destruct c as [x|] eqn:?; cbn [bind] in H; [|discriminate H]
         end.

Lemma reduce_key_kind (encodings : list ModelIO) (e0 : ModelIO) (key : string)
  (v0 v : value) :
  nth_error encodings 0 = Some e0 ->
  lookup key e0 = Some v0 ->
  reduce_key encodings key = Ok v ->
  if is_tuple v0 then exists a b, v = VTuple [a; b]
  else exists t, v = VTensor t.
Proof.
  intros H0 Hl. unfold reduce_key, list_index, getattr.
  rewrite H0. cbn [bind]. rewrite Hl. cbn [bind].
  destruct (is_tuple v0); intros H.
  - unbind H. injection H as <-. eauto.
  - unbind H.
    match type of H with
    | match ?x with _ => _ end = _ => destruct x; [|discriminate]
    end.
    unbind H. injection H as <-. eauto.
Qed.

(** X7.  What the batch reducer returns has the shape of the first term's
    encoding: the same fields in the same order, a tensor where the first
    term has a tensor, and a tuple of exactly two tensors where it has a
    tuple. *)
Theorem reduce_encodings_keeps_shape (encodings : list ModelIO)
  (e0 m : ModelIO) :
  nth_error encodings 0 = Some e0 ->
  reduce_encodings encodings = Ok m ->
  keys m = keys e0
  /\ forall key v0,
       lookup key e0 = Some v0 ->
       exists v,
         lookup key m = Some v
         /\ if is_tuple v0 then exists a b, v = VTuple [a; b]
            else exists t, v = VTensor t.
Proof.
  intros H0 Hm. unfold reduce_encodings, list_index in Hm.
  rewrite H0 in Hm. cbn [bind] in Hm. split.
  - exact (mapM_keys _ _ _ Hm).
  - intros key v0 Hl.
    assert (Hin : In key (keys e0)) by (apply lookup_in_keys; congruence).
    destruct (mapM_lookup _ _ _ Hm key Hin) as [v [Hr Hv]].
    exists v. split; [assumption|].
    exact (reduce_key_kind encodings e0 key v0 v H0 Hl Hr).
Qed.

(** *** Stacking over the batch *)

Lemma mapM_getattr_map {X : Type} (key : string) (f : X -> value)
  (mk : X -> ModelIO) (l : list X) :
  (forall x, lookup key (mk x) = Some (f x)) ->
  mapM (fun r => getattr r key) (map mk l) = Ok (map f l).
Proof.
  intros H. induction l as [|x l IH]; [reflexivity|].
  cbn [map mapM]. unfold getattr at 1. rewrite H. cbn [bind].
  rewrite IH. reflexivity.
Qed.

Lemma mapM_as_tensor_map {X : Type} (f : X -> tensor) (l : list X) :
  mapM as_tensor (map (fun x => VTensor (f x)) l) = Ok (map f l).
Proof.
  induction l as [|x l IH]; [reflexivity|].
  cbn [map mapM as_tensor bind]. rewrite IH. reflexivity.
Qed.

Lemma mapM_as_iter_pairs {X : Type} (f g : X -> tensor) (l : list X) :
  mapM as_iter (map (fun x => VTuple [f x; g x]) l)
  = Ok (map (fun x => [f x; g x]) l).
Proof.
  induction l as [|x l IH]; [reflexivity|].
  cbn [map mapM as_iter bind]. rewrite IH. reflexivity.
Qed.

Lemma collapse_key_tensors {X : Type} (key : string) (f : X -> tensor)
  (mk : X -> ModelIO) (l : list X) (d : ModelIO) :
  l <> [] ->
  (forall x, lookup key (mk x) = Some (VTensor (f x))) ->
  collapse_key (map mk l) (Ok d) key
  = (h <- thstack (map f l) ;; Ok (set_attribute key (VTensor h) d)).
Proof.
  intros Hne H. unfold collapse_key. cbn [bind].
  rewrite (mapM_getattr_map key (fun x => VTensor (f x)) mk l H).
  destruct l as [|x l]; [congruence|].
  cbn [map list_index nth_error bind]. unfold getattr. rewrite H.
  cbn [bind is_tuple].
  change (VTensor (f x) :: map (fun x0 => VTensor (f x0)) l)
    with (map (fun x0 => VTensor (f x0)) (x :: l)).
  rewrite mapM_as_tensor_map. reflexivity.
Qed.

Lemma heads_pairs {X A : Type} (f g : X -> A) (l : list X) :
  heads (map (fun x => [f x; g x]) l) = map f l.
Proof.
  unfold heads. induction l as [|x l IH]; [reflexivity|].
  cbn [map flat_map app]. now rewrite IH.
Qed.

Lemma heads_singletons {X A : Type} (g : X -> A) (l : list X) :
  heads (map (fun x => [g x]) l) = map g l.
Proof.
  unfold heads. induction l as [|x l IH]; [reflexivity|].
  cbn [map flat_map app]. now rewrite IH.
Qed.

Lemma min_length_pairs {X A : Type} (f g : X -> A) (l : list X) :
  fold_right Nat.min 2 (map (@List.length A) (map (fun x => [f x; g x]) l)) = 2.
Proof.
  induction l as [|x l IH]; [reflexivity|].
  cbn [map fold_right List.length]. now rewrite IH.
Qed.

Lemma zip_star_pairs {X A : Type} (f g : X -> A) (l : list X) :
  l <> [] -> zip_star (map (fun x => [f x; g x]) l) = [map f l; map g l].
Proof.
  intros Hne. destruct l as [|x l]; [congruence|].
  unfold zip_star. cbn [map List.length]. rewrite min_length_pairs.
  cbn [zip_star_n].
  change ([f x; g x] :: map (fun x0 => [f x0; g x0]) l)
    with (map (fun x0 => [f x0; g x0]) (x :: l)).
  rewrite heads_pairs, map_map. cbn [tl].
  now rewrite heads_singletons.
Qed.

Lemma collapse_key_pairs {X : Type} (key : string) (f g : X -> tensor)
  (mk : X -> ModelIO) (l : list X) (d : ModelIO) :
  l <> [] ->
  (forall x, lookup key (mk x) = Some (VTuple [f x; g x])) ->
  collapse_key (map mk l) (Ok d) key
  = (a <- thstack (map f l) ;;
     b <- thstack (map g l) ;;
     Ok (set_attribute key (VTuple [a; b]) d)).
Proof.
  intros Hne H. unfold collapse_key. cbn [bind].
  rewrite (mapM_getattr_map key (fun x => VTuple [f x; g x]) mk l H).
  assert (H0 : exists x, list_index (map mk l) 0 = Ok (mk x)).
  { destruct l as [|x l']; [congruence|]. now exists x. }
  destruct H0 as [x ->]. cbn [bind]. unfold getattr. rewrite H.
  cbn [bind is_tuple]. rewrite mapM_as_iter_pairs. cbn [bind].
  rewrite (zip_star_pairs f g l Hne). cbn [mapM].
  destruct (thstack (map f l)) as [a|]; [|reflexivity]. cbn [bind].
  destruct (thstack (map g l)) as [b|]; reflexivity.
Qed.

Lemma collapse_two_keys (reduced : list ModelIO) (r0 d : ModelIO) :
  list_index reduced 0 = Ok r0 ->
  keys r0 = ["enc_hidden"; "enc_outputs"] ->
  collapse reduced d
  = collapse_key reduced (collapse_key reduced (Ok d) "enc_hidden") "enc_outputs".
Proof.
  intros H0 Hk. unfold collapse. rewrite H0. cbn [bind]. now rewrite Hk.
Qed.

Lemma collapse_key_raise (reduced : list ModelIO) (e : exn) (key : string) :
  collapse_key reduced (Raise e) key = Raise e.
Proof. reflexivity. Qed.

(** X8.  Stacking the reduced encodings sets the hidden state and the
    outputs of the decoder input to the [hstack] of the hidden states and of
    the outputs of the examples, and leaves every other field of the decoder
    input, its source and transform among them, as it was. *)
Theorem collapse_stacks_tensor_buffers (hos : list (tensor * tensor))
  (d : ModelIO) (h o : tensor) :
  hos <> [] ->
  thstack (map fst hos) = Ok h ->
  thstack (map snd hos) = Ok o ->
  exists d',
    collapse (map tensor_buffer hos) d = Ok d'
    /\ lookup "enc_hidden" d' = Some (VTensor h)
    /\ lookup "enc_outputs" d' = Some (VTensor o)
    /\ forall key, key <> "enc_hidden" -> key <> "enc_outputs" ->
                   lookup key d' = lookup key d.
Proof.
  intros Hne Hh Ho. rewrite (collapse_tensor_buffers hos d Hne), Hh. cbn [bind].
  rewrite Ho. cbn [bind]. eexists. split; [reflexivity|].
  split; [|split].
  - rewrite lookup_set_other by discriminate. apply lookup_set_same.
  - apply lookup_set_same.
  - intros key H1 H2. rewrite !lookup_set_other by congruence. reflexivity.
Qed.

(** X9.  When the hidden state of every example is a pair (hidden and cell
    state), stacking keeps the pair and stacks position by position: the
    first components together and the second components together. *)
Theorem collapse_stacks_pairs (abos : list (tensor * tensor * tensor))
  (d : ModelIO) (a b o : tensor) :
  abos <> [] ->
  thstack (map (fun x => fst (fst x)) abos) = Ok a ->
  thstack (map (fun x => snd (fst x)) abos) = Ok b ->
  thstack (map snd abos) = Ok o ->
  exists d',
    collapse (map lstm_buffer abos) d = Ok d'
    /\ lookup "enc_hidden" d' = Some (VTuple [a; b])
    /\ lookup "enc_outputs" d' = Some (VTensor o)
    /\ forall key, key <> "enc_hidden" -> key <> "enc_outputs" ->
                   lookup key d' = lookup key d.
Proof.
  intros Hne Ha Hb Ho.
  assert (H0 : exists x, list_index (map lstm_buffer abos) 0 = Ok (lstm_buffer x)).
  { destruct abos as [|x l']; [congruence|]. now exists x. }
  destruct H0 as [x H0].
  rewrite (collapse_two_keys _ _ d H0 eq_refl).
  rewrite (collapse_key_pairs "enc_hidden" (fun x => fst (fst x))
             (fun x => snd (fst x)) lstm_buffer abos d Hne)
    by reflexivity.
  rewrite Ha. cbn [bind]. rewrite Hb. cbn [bind].
  rewrite (collapse_key_tensors "enc_outputs" snd lstm_buffer abos _ Hne)
    by reflexivity.
  rewrite Ho. cbn [bind]. eexists. split; [reflexivity|].
  split; [|split].
  - rewrite lookup_set_other by discriminate. apply lookup_set_same.
  - apply lookup_set_same.
  - intros key H1 H2. rewrite !lookup_set_other by congruence. reflexivity.
Qed.

(** *** The batch path and the expression path *)

Lemma reduce_tensor_buffers (e0 e1 e2 : tensor * tensor) (h o : tensor) :
  fold_terms (fst e0) [(Minus, fst e1); (Plus, fst e2)] = Ok h ->
  fold_terms (snd e0) [(Minus, snd e1); (Plus, snd e2)] = Ok o ->
  reduce_encodings [tensor_buffer e0; tensor_buffer e1; tensor_buffer e2]
  = Ok (tensor_buffer (h, o)).
Proof.
  intros Hh Ho. unfold reduce_encodings.
  cbn [list_index nth_error bind keys tensor_buffer map fst mapM].
  rewrite (reduce_key_tensors _ _ _ [] "enc_hidden" (fst e0) (fst e1) (fst e2))
    by reflexivity.
  rewrite Hh. cbn [bind].
  rewrite (reduce_key_tensors _ _ _ [] "enc_outputs" (snd e0) (snd e1) (snd e2))
    by reflexivity.
  rewrite Ho. reflexivity.
Qed.

Lemma buffer_eta (buf : buffer) (h o : option value) :
  buffer_field "enc_hidden" buf = h ->
  buffer_field "enc_outputs" buf = o ->
  buf = {| enc_hidden := h; enc_outputs := o |}.
Proof. destruct buf. cbn. now intros -> ->. Qed.

(** X10.  On a batch of one example with two operators the policy
    [offset = 0] and [forward_expression] agree: when the three
    sub-expressions are encoded into a hidden state and outputs that the
    engine can combine, [forward_batch_expr] returns what
    [forward_expression] returns on the three sub-expressions joined by
    ["-"] and ["+"]. *)
Theorem batch_of_one_is_expression (col : list Z) (ann : tensor)
  (s0 s1 s2 : list Z) (e0 e1 e2 : tensor * tensor) (h o : tensor) :
  padded col ->
  sub_expressions col = [s0; s1; s2] ->
  encoder (term_input s0) = Ok (tensor_buffer e0) ->
  encoder (term_input s1) = Ok (tensor_buffer e1) ->
  encoder (term_input s2) = Ok (tensor_buffer e2) ->
  fold_terms (fst e0) [(Minus, fst e1); (Plus, fst e2)] = Ok h ->
  fold_terms (snd e0) [(Minus, snd e1); (Plus, snd e2)] = Ok o ->
  thstack [h] = Ok h ->
  thstack [o] = Ok o ->
  forward_batch_expr {| source := [col]; annotation := ann |} 0
  = forward_expression
      [Term [s0] ann; Str "-"; Term [s1] ann; Str "+"; Term [s2] ann].
Proof.
  intros Hpad Hsub H0 H1 H2 Hh Ho Hsh Hso.
  unfold forward_batch_expr. cbn [source annotation].
  rewrite (split_batch_spec [col] (Forall_cons _ Hpad (Forall_nil _))).
  cbn [bind map]. rewrite Hsub.
  unfold stack_first_terms.
  cbn [mapM list_index nth_error bind stack forallb].
  cbn [Z.ltb Z.compare Z.eqb].
  unfold encode_reduce_expressions. cbn [map mapM].
  rewrite H0. cbn [bind]. rewrite H1. cbn [bind]. rewrite H2. cbn [bind].
  rewrite (reduce_tensor_buffers e0 e1 e2 h o Hh Ho). cbn [bind].
  rewrite (collapse_tensor_buffers [(h, o)]) by discriminate.
  cbn [map fst snd]. rewrite Hsh, Hso. cbn [bind].
  unfold forward_expression, encode_items.
  cbn [mapM encode_item]. unfold term_input in H0, H1, H2.
  rewrite H0. cbn [bind]. rewrite H1. cbn [bind]. rewrite H2. cbn [bind map fst snd List.concat app].
  assert (Hbuf : reduce_representations
                   [REnc (tensor_buffer e0); RStr "-"; REnc (tensor_buffer e1);
                    RStr "+"; REnc (tensor_buffer e2)]
                 = {| enc_hidden := Some (VTensor h);
                      enc_outputs := Some (VTensor o) |}).
  { apply buffer_eta.
    - change [REnc (tensor_buffer e0); RStr "-"; REnc (tensor_buffer e1);
              RStr "+"; REnc (tensor_buffer e2)]
        with (REnc (tensor_buffer e0)
                :: interleave [Minus; Plus] [tensor_buffer e1; tensor_buffer e2]).
      unfold reduce_representations. cbn [fold_left reduce_step].
      rewrite (fold_reduce_step "enc_hidden" [Minus; Plus] (or_introl eq_refl)
                 [tensor_buffer e1; tensor_buffer e2] [fst e1; fst e2] _ (fst e0));
        [cbn [combine]; now rewrite Hh|reflexivity|repeat constructor|reflexivity].
    - change [REnc (tensor_buffer e0); RStr "-"; REnc (tensor_buffer e1);
              RStr "+"; REnc (tensor_buffer e2)]
        with (REnc (tensor_buffer e0)
                :: interleave [Minus; Plus] [tensor_buffer e1; tensor_buffer e2]).
      unfold reduce_representations. cbn [fold_left reduce_step].
      rewrite (fold_reduce_step "enc_outputs" [Minus; Plus] (or_intror eq_refl)
                 [tensor_buffer e1; tensor_buffer e2] [snd e1; snd e2] _ (snd e0));
        [cbn [combine]; now rewrite Ho|reflexivity|repeat constructor|reflexivity]. }
  rewrite Hbuf. reflexivity.
Qed.

(** *** The loop of [forward_expression] on lists that do not alternate *)

Lemma reduce_step_normalise (st : buffer * option torch_op) (r : repr) :
  reduce_step st (normalise_repr r) = reduce_step st r.
Proof.
  destruct st as [buf so]. destruct r as [s|enc]; [|reflexivity].
  cbn. unfold normalise. destruct (String.eqb s "+"); reflexivity.
Qed.

Lemma reduce_normalise (reps : list repr) :
  reduce_representations (map normalise_repr reps) = reduce_representations reps.
Proof.
  unfold reduce_representations. generalize ({| enc_hidden := None; enc_outputs := None |}, @None torch_op).
  induction reps as [|r reps IH]; intros st; [reflexivity|].
  cbn [map fold_left]. rewrite reduce_step_normalise. apply IH.
Qed.

Lemma encode_items_normalise (trunc : list (list Z) -> list (list Z))
  (items : list item) :
  encode_items trunc (map normalise_item items)
  = (rs <- encode_items trunc items ;; Ok (map normalise_repr (fst rs), snd rs)).
Proof.
  unfold encode_items.
  assert (Hm : mapM (encode_item trunc) (map normalise_item items)
               = (rs <- mapM (encode_item trunc) items ;;
                  Ok (map (fun p => (normalise_repr (fst p), snd p)) rs))).
  { induction items as [|t items IH]; [reflexivity|].
    cbn [map mapM]. rewrite IH.
    destruct t as [s|src ann]; cbn [normalise_item encode_item bind].
    - destruct (mapM (encode_item trunc) items); reflexivity.
    - destruct (encoder _); cbn [bind]; [|reflexivity].
      destruct (mapM (encode_item trunc) items); reflexivity. }
  rewrite Hm. destruct (mapM (encode_item trunc) items) as [rs|]; [|reflexivity].
  cbn [bind fst snd]. rewrite !map_map. reflexivity.
Qed.

Lemma first_term_normalise (items : list item) :
  first_term (map normalise_item items) = first_term items.
Proof. destruct items as [|[s|src ann] items]; reflexivity. Qed.

(** X11.  In [forward_expression] and [forward_expression_eos] an operator
    string is compared with ["+"] only: any other string, and not ["-"]
    alone, subtracts. *)
Theorem other_operators_subtract (items : list item) :
  forward_expression (map normalise_item items) = forward_expression items
  /\ forward_expression_eos (map normalise_item items)
     = forward_expression_eos items.
Proof.
  split.
  - unfold forward_expression. rewrite encode_items_normalise.
    destruct (encode_items _ items) as [[reps sources]|]; [|reflexivity].
    cbn [bind fst snd]. rewrite reduce_normalise.
    unfold make_dec_inputs. now rewrite first_term_normalise.
  - unfold forward_expression_eos. rewrite encode_items_normalise.
    destruct (encode_items _ items) as [[reps sources]|]; [|reflexivity].
    cbn [bind fst snd]. rewrite reduce_normalise.
    unfold eos_compose, eos_asserts, make_dec_inputs.
    now rewrite first_term_normalise.
Qed.

Lemma fold_ends_idle (pre : list repr) (enc : ModelIO)
  (st : buffer * option torch_op) :
  snd (fold_left reduce_step (pre ++ [REnc enc]) st) = None.
Proof.
  rewrite fold_left_app. cbn [fold_left].
  destruct (fold_left reduce_step pre st) as [buf [op|]]; reflexivity.
Qed.

(** X12.  The loop combines a term with the buffer only when an operator
    came right before it: a term that follows another term directly
    replaces the buffer, so that everything before it is discarded; and an
    operator at the end of the list changes nothing. *)
Theorem adjacent_terms_restart (pre post : list repr) (enc' enc : ModelIO)
  (s : string) :
  reduce_representations (pre ++ REnc enc' :: REnc enc :: post)
  = reduce_representations (REnc enc :: post)
  /\ reduce_representations (pre ++ [RStr s]) = reduce_representations pre.
Proof.
  unfold reduce_representations. split.
  - change (pre ++ REnc enc' :: REnc enc :: post)
      with (pre ++ [REnc enc'] ++ REnc enc :: post).
    rewrite app_assoc, fold_left_app.
    pose proof (fold_ends_idle pre enc'
                  ({| enc_hidden := None; enc_outputs := None |}, None)) as H.
    destruct (fold_left reduce_step (pre ++ [REnc enc']) _) as [buf so].
    cbn [snd] in H. subst so. reflexivity.
  - rewrite fold_left_app. cbn [fold_left].
    destruct (fold_left reduce_step pre _) as [buf so]. reflexivity.
Qed.

Lemma operate_not_tensor (op : torch_op) (b : option value) (e : ModelIO)
  (key : string) :
  (forall t, lookup key e <> Some (VTensor t)) ->
  operate_field op b e key = None.
Proof.
  intros H. unfold operate_field.
  destruct b as [[x|l]|]; try reflexivity.
  destruct (lookup key e) as [[y|l]|]; try reflexivity.
  exfalso. now apply (H y).
Qed.

Lemma fold_not_tensor (key : string) (ops : list operator) :
  buffer_key key ->
  forall (es : list ModelIO) (buf : buffer),
    List.length ops = List.length es ->
    (exists e, In e es /\ forall t, lookup key e <> Some (VTensor t)) ->
    buffer_field key (fst (fold_left reduce_step (interleave ops es) (buf, None)))
    = None.
Proof.
  intros Hk. induction ops as [|op ops IH]; intros es buf Hlen [e [Hin He]].
  - destruct es; [destruct Hin|discriminate].
  - destruct es as [|e' es]; [discriminate|].
    cbn [interleave fold_left]. rewrite reduce_step_pair.
    destruct Hin as [->|Hin].
    + apply fold_stays_none; [assumption|].
      rewrite buffer_field_operate by assumption.
      now apply operate_not_tensor.
    + apply IH; [now injection Hlen|eauto].
Qed.

(** X13.  The loop of [forward_expression] keeps a field only when it is a
    single tensor in every term: as soon as two terms are combined, a field
    that is a tuple in one of them (the hidden and cell state of a recurrent
    encoder) ends as [None] and does not reach the decoder. *)
Theorem tuple_field_is_dropped (key : string) (ops : list operator)
  (e0 : ModelIO) (es : list ModelIO) :
  buffer_key key ->
  List.length ops = List.length es ->
  es <> [] ->
  (exists e l, In e (e0 :: es) /\ lookup key e = Some (VTuple l)) ->
  buffer_field key (reduce_representations (REnc e0 :: interleave ops es)) = None.
Proof.
  intros Hk Hlen Hne [e [l [[<-|Hin] He]]].
  - unfold reduce_representations. cbn [fold_left reduce_step].
    destruct es as [|e1 es]; [congruence|].
    destruct ops as [|op ops]; [discriminate|].
    cbn [interleave fold_left]. rewrite reduce_step_pair.
    apply fold_stays_none; [assumption|].
    rewrite buffer_field_operate, buffer_field_load by assumption.
    unfold load_field, operate_field. now rewrite He.
  - unfold reduce_representations. cbn [fold_left reduce_step].
    apply fold_not_tensor; try assumption.
    exists e. split; [assumption|]. intros t. rewrite He. discriminate.
Qed.

(** X19.  Every term of every example is encoded, also those beyond the
    third that the reduction leaves out: when the encoder raises on any term
    of the batch, the batch reducer does not return. *)
Theorem every_term_is_encoded (expressions : list (list ModelIO))
  (exp : list ModelIO) (term : ModelIO) :
  In exp expressions -> In term exp -> is_ok (encoder term) = false ->
  is_ok (encode_reduce_expressions expressions) = false.
Proof.
  intros Hexp Hterm Hfail. unfold encode_reduce_expressions.
  apply (mapM_raise_in _ _ exp Hexp).
  apply is_ok_bind_left. exact (mapM_raise_in encoder exp term Hterm Hfail).
Qed.

(** *** Ill-formed expression lists *)

Lemma encode_items_strings (trunc : list (list Z) -> list (list Z))
  (items : list item) :
  forallb is_str items = true ->
  exists reps, encode_items trunc items = Ok (reps, []).
Proof.
  unfold encode_items. intros H.
  assert (Hm : exists rs, mapM (encode_item trunc) items = Ok rs
                          /\ List.concat (map snd rs) = []).
  { induction items as [|t items IH]; [exists []; now split|].
    cbn [forallb] in H. apply andb_prop in H as [Ht Hi].
    destruct (IH Hi) as [rs [Hrs Hc]].
    destruct t as [s|]; [|discriminate].
    exists ((RStr s, []) :: rs). cbn [mapM encode_item bind]. rewrite Hrs.
    split; [reflexivity|]. cbn. exact Hc. }
  destruct Hm as [rs [-> Hc]]. cbn [bind]. rewrite Hc. eauto.
Qed.

(** X14.  [forward_expression] on a list without any term raises an index
    error, and on a list that starts with an operator string an attribute
    error, once the terms have been encoded; [forward_expression_eos] raises
    an attribute error on a list that starts with an operator string. *)
Theorem ill_formed_expressions :
  (forall items : list item,
      forallb is_str items = true ->
      forward_expression items = Raise IndexError)
  /\ (forall (s : string) (items : list item) reps src srcs,
         encode_items (fun x => x) (Str s :: items) = Ok (reps, src :: srcs) ->
         forward_expression (Str s :: items) = Raise AttributeError)
  /\ (forall (s : string) (items : list item) reps srcs,
         encode_items drop_last_step (Str s :: items) = Ok (reps, srcs) ->
         forward_expression_eos (Str s :: items) = Raise AttributeError).
Proof.
  split; [|split].
  - intros items H. unfold forward_expression.
    destruct (encode_items_strings (fun s => s) items H) as [reps ->].
    reflexivity.
  - intros s items reps src srcs H. unfold forward_expression.
    rewrite H. reflexivity.
  - intros s items reps srcs H. unfold forward_expression_eos.
    rewrite H. reflexivity.
Qed.

(** X15.  [forward_expression_eos] cannot return when the encoder resumes
    into a tuple as hidden state (hidden and cell state): the second
    assertion reads [shape] of the hidden state, which a tuple does not
    have, so that the call ends in an attribute error when the outputs have
    the asserted shape, and in the assertion error otherwise. *)
Theorem eos_rejects_tuple_hidden (expressions : list item)
  (reps : list repr) (sources : list (list (list Z))) (outs : tensor)
  (l : list tensor) :
  encode_items drop_last_step expressions = Ok (reps, sources) ->
  eos_compose expressions (reduce_representations reps) = Ok (outs, VTuple l) ->
  is_ok (forward_expression_eos expressions) = false
  /\ forall src0 ann,
       first_term expressions = Ok (src0, ann) ->
       forward_expression_eos expressions
       = if list_eq_dec Nat.eq_dec (firstn 2 (tshape outs)) (tok_shape src0)
         then Raise AttributeError else Raise AssertionError.
Proof.
  intros He Hc. unfold forward_expression_eos. rewrite He. cbn [bind].
  rewrite Hc. cbn [bind]. unfold eos_asserts. split.
  - destruct (first_term expressions) as [[src0 ann]|]; [|reflexivity].
    cbn [bind]. destruct (list_eq_dec _ _ _); reflexivity.
  - intros src0 ann ->. cbn [bind]. destruct (list_eq_dec _ _ _); reflexivity.
Qed.

(** X16.  The policy [offset < 0] cuts every term in two without losing or
    repeating a token: what is encoded before the reduction and what is left
    for the resumption make up the term; the part that is left has [-offset]
    tokens, or the whole term when the term is shorter, in which case
    nothing is encoded before the reduction. *)
Theorem prefix_suffix_partition (k : nat) (term : list Z) :
  prefix k term ++ suffix k term = term
  /\ List.length (prefix k term) = List.length term - k
  /\ List.length (suffix k term) = Nat.min k (List.length term)
  /\ (List.length term <= k -> prefix k term = [] /\ suffix k term = term).
Proof.
  unfold prefix, suffix. split; [apply firstn_skipn|]. split; [|split].
  - rewrite length_firstn. lia.
  - rewrite length_skipn. lia.
  - intros H. replace (List.length term - k) with 0 by lia. now split.
Qed.

End CompositionMore.

Section ForwardFacts.
Context `{E : TensorEngine} `{N : !Networks}.
Variable ratio : Type.
Variable decoder_with : ModelIO -> ratio -> result ModelIO.

Lemma lookup_set_if_present (key key' : string) (v : option value) (m : ModelIO) :
  key <> key' -> lookup key' (set_if_present key v m) = lookup key' m.
Proof.
  intros H. destruct v; [now apply lookup_set_other|reflexivity].
Qed.

Lemma lookup_set_if_present_same (key : string) (v : option value) (m : ModelIO) :
  lookup key m = None -> lookup key (set_if_present key v m) = v.
Proof.
  intros H. destruct v; [apply lookup_set_same|exact H].
Qed.

(** X17.  [forward] gives the decoder the fields of the encoder output,
    except that the source and the transform are those of the batch, whatever
    the encoder had put under these names, and that the target of the batch
    is added when the batch has one. *)
Theorem forward_dec_input_fields (enc_output : ModelIO) (batch : Batch)
  (target : option tensor) :
  lookup "source" (forward_dec_input enc_output batch target)
  = Some (VTensor (of_tokens (source batch)))
  /\ lookup "transform" (forward_dec_input enc_output batch target)
     = Some (VTensor (annotation batch))
  /\ lookup "target" (forward_dec_input enc_output batch target)
     = match target with
       | Some t => Some (VTensor t)
       | None => lookup "target" enc_output
       end
  /\ forall key,
       key <> "source" -> key <> "transform" -> key <> "target" ->
       lookup key (forward_dec_input enc_output batch target)
       = lookup key enc_output.
Proof.
  unfold forward_dec_input, set_attributes. cbn [fold_left fst snd].
  destruct target as [t|].
  - split; [|split; [|split]].
    + rewrite !lookup_set_other by discriminate. apply lookup_set_same.
    + rewrite lookup_set_other by discriminate. apply lookup_set_same.
    + apply lookup_set_same.
    + intros key H1 H2 H3. rewrite !lookup_set_other by congruence. reflexivity.
  - split; [|split; [|split]].
    + rewrite lookup_set_other by discriminate. apply lookup_set_same.
    + apply lookup_set_same.
    + rewrite !lookup_set_other by discriminate. reflexivity.
    + intros key H1 H2 H3. rewrite !lookup_set_other by congruence. reflexivity.
Qed.

(** X18.  [forward] without target and [forward_expression] on the one term
    made of the batch are the same computation: when the encoder reports a
    hidden state and outputs only, and the decoder at the ratio [zero] is the
    decoder of the composition code and reads its input field by field, the
    two calls return the same result. *)
Theorem forward_is_single_term_expression (zero : ratio) (batch : Batch) :
  (forall m m', (forall key, lookup key m = lookup key m') ->
                decoder_with m zero = decoder m') ->
  (forall m enc, encoder m = Ok enc ->
                 forall key, In key (keys enc) -> buffer_key key) ->
  forward ratio decoder_with batch None zero
  = forward_expression [Term (source batch) (annotation batch)].
Proof.
  intros Hdec Henc. unfold forward, forward_expression, encode_items.
  cbn [mapM encode_item bind].
  destruct (encoder _) as [enc|] eqn:Hrun; [|reflexivity].
  cbn [bind map fst snd List.concat app].
  unfold make_dec_inputs. cbn [list_index nth_error bind first_term].
  unfold decode. f_equal. apply Hdec. intros key.
  specialize (Henc _ _ Hrun).
  unfold forward_dec_input, set_attributes. cbn [fold_left fst snd].
  unfold reduce_representations. cbn [fold_left reduce_step fst enc_hidden enc_outputs].
  unfold load_field.
  destruct (String.eqb_spec key "source") as [->|Hs].
  { rewrite lookup_set_other by discriminate. rewrite lookup_set_same.
    rewrite !lookup_set_if_present by discriminate. reflexivity. }
  destruct (String.eqb_spec key "transform") as [->|Ht].
  { rewrite lookup_set_same.
    rewrite !lookup_set_if_present by discriminate. reflexivity. }
  rewrite !lookup_set_other by congruence.
  destruct (String.eqb_spec key "enc_outputs") as [->|Ho].
  { now rewrite lookup_set_if_present_same
      by (rewrite lookup_set_if_present by discriminate; reflexivity). }
  rewrite lookup_set_if_present by congruence.
  destruct (String.eqb_spec key "enc_hidden") as [->|Hh].
  { now rewrite lookup_set_if_present_same by reflexivity. }
  rewrite lookup_set_if_present by congruence.
  assert (Hnone : lookup key enc = None).
  { destruct (lookup key enc) eqn:Hl; [|reflexivity].
    assert (Hin : In key (keys enc)) by (apply lookup_in_keys; congruence).
    destruct (Henc key Hin); congruence. }
  rewrite Hnone. cbn [lookup].
  apply String.eqb_neq in Hs, Ht. rewrite String.eqb_sym in Hs, Ht.
  rewrite Hs, Ht. reflexivity.
Qed.

End ForwardFacts.

(** * The further properties on concrete encodings and batches *)

Section MoreConcreteRuns.
Import IntEngine Examples MoreExamples Splitter SplitSpec Rejoin.

Lemma run_encoder_keys (m r : ModelIO) (h0 : option (list Z)) :
  run_encoder m h0 = Ok r -> keys r = ["enc_hidden"; "enc_outputs"].
Proof.
  unfold run_encoder.
  destruct (getattr m "source") as [[t|]|]; try discriminate. cbn [bind].
  destruct (shape t) as [|T [|B [|? ?]]]; try discriminate.
  destruct (Nat.eqb _ B); [|discriminate].
  destruct (run_steps _ _). intros H. injection H as <-. reflexivity.
Qed.

Lemma echo_decoder_by_field (m m' : ModelIO) :
  (forall key, lookup key m = lookup key m') -> echo_decoder m = echo_decoder m'.
Proof. intros H. unfold echo_decoder, getattr. now rewrite H. Qed.

Lemma split_rejoin_witness :
  map rejoin [[[1; 3; 2]; [1; 4; 2]; [1; 5; 2]]%Z] = [analogy_column].
Proof.
  apply (split_rejoin [analogy_column] [[1; 3; 0; 4; 1; 5; 2]%Z]).
  reflexivity.
Defined.

Lemma split_leaves_no_operator_marker_witness :
  Forall (Forall (fun sub => sub <> [] /\ ~ In unk sub))
    [[[1; 3; 2]; [1; 4; 2]; [1; 5; 2]]%Z].
Proof.
  apply (split_leaves_no_operator_marker [analogy_column]
           [[1; 3; 0; 4; 1; 5; 2]%Z]).
  - reflexivity.
  - repeat constructor. discriminate.
Defined.

Lemma second_split_sees_fewer_terms_witness :
  exists source'' expressions',
    split_and_pad_expressions [[1; 3; 0; 4; 1; 5; 2]%Z]
    = Ok (source'', expressions')
    /\ Forall2 (fun e e' => List.length e' = Nat.max 1 (List.length e - 1))
         [[[1; 3; 2]; [1; 4; 2]; [1; 5; 2]]%Z] expressions'.
Proof.
  apply (second_split_sees_fewer_terms [analogy_column]). reflexivity.
Defined.

Lemma second_call_fails_witness :
  is_ok (forward_batch_expr
           {| source := [[1; 3; 0; 4; 1; 5; 2]%Z; [1; 7; 0; 4; 1; 5; 2]%Z];
              annotation := no_annotation |} 0)
  = false.
Proof.
  apply (second_call_fails analogy_batch 0
           [[1; 3; 0; 4; 1; 5; 2]%Z; [1; 7; 0; 4; 1; 5; 2]%Z]
           [[[1; 3; 2]; [1; 4; 2]; [1; 5; 2]]%Z;
            [[1; 7; 2]; [1; 4; 2]; [1; 5; 2]]%Z]).
  - intros m r. apply run_encoder_fields.
  - discriminate.
  - repeat constructor.
  - reflexivity.
Defined.

Lemma uneven_first_terms_raise_witness :
  forward_batch_expr ragged_batch 0 = Raise RuntimeError.
Proof.
  apply uneven_first_terms_raise.
  - repeat constructor; discriminate.
  - right. exists analogy_column, [1; 3; 3; 0; 4; 0; 2]%Z.
    split; [left; reflexivity|]. split; [right; left; reflexivity|].
    vm_compute. discriminate.
Defined.

Lemma reduce_encodings_keeps_shape_witness :
  keys (bag 7 1) = keys (bag 6 1)
  /\ forall key v0,
       lookup key (bag 6 1) = Some v0 ->
       exists v,
         lookup key (bag 7 1) = Some v
         /\ if is_tuple v0 then exists a b, v = VTuple [a; b]
            else exists t, v = VTensor t.
Proof.
  apply (reduce_encodings_keeps_shape [bag 6 1; bag 7 1; bag 8 1]);
    reflexivity.
Defined.

Lemma collapse_stacks_tensor_buffers_witness :
  exists d',
    collapse (map tensor_buffer [(cell 1, cell 2); (cell 3, cell 4)]) [] = Ok d'
    /\ lookup "enc_hidden" d' = Some (VTensor (row [1; 3]%Z))
    /\ lookup "enc_outputs" d' = Some (VTensor (row [2; 4]%Z))
    /\ forall key, key <> "enc_hidden" -> key <> "enc_outputs" ->
                   lookup key d' = lookup key [].
Proof.
  apply (@collapse_stacks_tensor_buffers engine
           [(cell 1, cell 2); (cell 3, cell 4)] []
           (row [1; 3]%Z) (row [2; 4]%Z));
    [discriminate|reflexivity|reflexivity].
Defined.

Lemma collapse_stacks_pairs_witness :
  exists d',
    collapse (map lstm_buffer [(cell 1, cell 2, cell 3); (cell 4, cell 5, cell 6)]) []
    = Ok d'
    /\ lookup "enc_hidden" d' = Some (VTuple [row [1; 4]%Z; row [2; 5]%Z])
    /\ lookup "enc_outputs" d' = Some (VTensor (row [3; 6]%Z))
    /\ forall key, key <> "enc_hidden" -> key <> "enc_outputs" ->
                   lookup key d' = lookup key [].
Proof.
  apply (@collapse_stacks_pairs engine
           [(cell 1, cell 2, cell 3); (cell 4, cell 5, cell 6)] []
           (row [1; 4]%Z) (row [2; 5]%Z) (row [3; 6]%Z));
    [discriminate|reflexivity..].
Defined.

Lemma batch_of_one_is_expression_witness :
  forward_batch_expr (@Build_Batch engine [analogy_column] no_annotation) 0
  = forward_expression analogy_items.
Proof.
  apply (@batch_of_one_is_expression engine networks analogy_column no_annotation
           [1; 3; 2]%Z [1; 4; 2]%Z [1; 5; 2]%Z
           (cell 6, mk_tensor [3; 1; 1] [1; 4; 6]%Z)
           (cell 7, mk_tensor [3; 1; 1] [1; 5; 7]%Z)
           (cell 8, mk_tensor [3; 1; 1] [1; 6; 8]%Z)
           (cell 7) (mk_tensor [3; 1; 1] [1; 5; 7]%Z));
    try reflexivity.
  split; discriminate.
Defined.

Lemma tuple_field_is_dropped_witness :
  buffer_field "enc_hidden"
    (reduce_representations (REnc (lstm_bag 1 2) :: interleave [Minus] [lstm_bag 3 4]))
  = None.
Proof.
  apply tuple_field_is_dropped.
  - left. reflexivity.
  - reflexivity.
  - discriminate.
  - exists (lstm_bag 1 2), [cell 1; cell 2]. split; [left|]; reflexivity.
Defined.

Lemma ill_formed_expressions_witness :
  forward_expression [Str "+"] = Raise IndexError.
Proof. apply (proj1 ill_formed_expressions). reflexivity. Defined.

Lemma eos_rejects_tuple_hidden_witness :
  is_ok (@forward_expression_eos engine LstmNetworks.networks
           [Term [[1; 3; 2]%Z] no_annotation])
  = false.
Proof.
  refine (proj1 (@eos_rejects_tuple_hidden engine LstmNetworks.networks
                   [Term [[1; 3; 2]%Z] no_annotation] _ _ _ _ _ _));
    reflexivity.
Defined.

Lemma prefix_suffix_partition_witness :
  prefix 5 [1; 2]%Z = [] /\ suffix 5 [1; 2]%Z = [1; 2]%Z.
Proof.
  apply (proj2 (proj2 (proj2 (prefix_suffix_partition 5 [1; 2]%Z)))).
  simpl. lia.
Defined.

Lemma forward_dec_input_fields_witness :
  lookup "enc_hidden" (forward_dec_input (bag 6 1) plain_batch None)
  = lookup "enc_hidden" (bag 6 1).
Proof.
  apply (proj2 (proj2 (proj2 (forward_dec_input_fields (bag 6 1) plain_batch None))));
    discriminate.
Defined.

Lemma forward_is_single_term_expression_witness :
  forward unit decoder_any_ratio plain_batch None tt
  = forward_expression [Term (source plain_batch) (annotation plain_batch)].
Proof.
  apply forward_is_single_term_expression.
  - intros m m' H. now apply echo_decoder_by_field.
  - intros m enc Hrun key Hin. cbn in Hrun.
    rewrite (run_encoder_keys _ _ _ Hrun) in Hin.
    destruct Hin as [<-|[<-|[]]]; [left|right]; reflexivity.
Defined.

Lemma every_term_is_encoded_witness :
  is_ok (encode_reduce_expressions
           [[term_input [1; 3; 2]%Z; term_input [1; 4; 2]%Z;
             term_input [1; 5; 2]%Z; []]])
  = false.
Proof.
  apply (@every_term_is_encoded engine networks
           [[term_input [1; 3; 2]%Z; term_input [1; 4; 2]%Z;
             term_input [1; 5; 2]%Z; []]]
           [term_input [1; 3; 2]%Z; term_input [1; 4; 2]%Z;
            term_input [1; 5; 2]%Z; []] []).
  - left. reflexivity.
  - right. right. right. left. reflexivity.
  - reflexivity.
Defined.

End MoreConcreteRuns.
